(** * react-docgen: expression paths and the parse pipeline

    A shallow embedding of [src/utils/expressionTo.js] (the functions
    [toArray] and [toString]) and of [src/parse.js] (the functions
    [executeHandlers] and [parse]), with the properties the
    specification states about them. *)

From Stdlib Require Import Ascii String.
From stdpp Require Import base option list strings gmap.

Local Open Scope string_scope.
Local Open Scope list_scope.
Local Set Warnings "-register-all".

(** * Syntax tree *)

(** The value of an ESTree [Literal].  [toArray] never reads it (it reads
    [raw]); it is kept so that a literal can be named by what it denotes.
    Numbers are restricted to integers. *)
Inductive LiteralValue : Type :=
| StringValue (s : string)
| NumberValue (n : Z)
| BooleanValue (b : bool)
| NullValue.

(** The node kinds [toArray] distinguishes, with the fields it reads.
    An object literal's properties are its [key]/[value] pairs (no spread
    element); an element of an array literal is a node, or [None] for a
    hole ([null] in the tree, as the second element of [[1, , 2]]);
    [OtherNode] stands for every node type that none of the [check]s of
    [toArray] accepts.  A [NodePath] is identified with the node it points
    to: whatever the path knows of the enclosing scopes is part of the
    value resolver below. *)
Inductive Node : Type :=
| CallExpression (callee : Node) (arguments : list Node)
| MemberExpression (object property : Node) (computed : bool)
| Identifier (name : string)
| Literal (value : LiteralValue) (raw : string)
| ThisExpression
| ObjectExpression (properties : list (Node * Node))
| ArrayExpression (elements : list (option Node))
| OtherNode (type : string).

(** An element of the array [toArray] returns: a string, or [undefined]
    when [node.property.name] is read off a node without a [name]. *)
Inductive Segment : Type :=
| Str (s : string)
| Undefined.

(** [node.name] *)
Definition name_of (node : Node) : Segment :=
  match node with
  | Identifier name => Str name
  | _ => Undefined
  end.

(** [Array.prototype.join] on strings. *)
Fixpoint join (sep : string) (l : list string) : string :=
  match l with
  | [] => EmptyString
  | [s] => s
  | s :: l' => s +:+ sep +:+ join sep l'
  end.

(** What [join] prints for an element: [undefined] is the empty string. *)
Definition segment_text (s : Segment) : string :=
  match s with
  | Str s => s
  | Undefined => EmptyString
  end.

(** * Outcomes *)

(** What [toArray] and [toString] can throw: the [TypeError] of reading a
    property of [null]. *)
Inductive JsError : Type := TypeError.

(** How a call with fuel ends: it returns a value, it throws, or the fuel
    ran out before it did either. *)
Inductive Run (A : Type) : Type :=
| Value (a : A)
| Raise (e : JsError)
| OutOfFuel.
Arguments Value {A} a.
Arguments Raise {A} e.
Arguments OutOfFuel {A}.

#[global] Instance Run_ret : MRet Run := fun _ a => Value a.
#[global] Instance Run_bind : MBind Run :=
  fun _ _ f m =>
    match m with
    | Value a => f a
    | Raise e => Raise e
    | OutOfFuel => OutOfFuel
    end.
#[global] Instance Run_fmap : FMap Run :=
  fun _ _ f m =>
    match m with
    | Value a => Value (f a)
    | Raise e => Raise e
    | OutOfFuel => OutOfFuel
    end.

(** [m'] is what [m] becomes with more fuel: the same, unless [m] ran out
    of fuel. *)
Definition extends {A} (m m' : Run A) : Prop := m = OutOfFuel \/ m' = m.

Module ExpressionTo.
Section WithResolver.

(** [resolveToValue] of [src/utils/resolveToValue.js]: the path a
    reference is bound to, or [undefined]. *)
Variable resolveToValue : Node -> option Node.

(** The [while] loop of [toArray], on the queue [parts] and the
    accumulated [result].  [fuel] bounds the number of loop iterations
    and the depth of the recursive calls.  A recursive call [toArray(p)]
    is the loop started on [[p]] with an empty [result].

    [toString] on the path of a hole of an array literal throws: the
    [node] of a path whose value is [null] is the enclosing node, the
    array literal, so the loop takes the branch of array literals, and
    [path.get('elements')] reads a property of [null]. *)
Fixpoint toArray_while (fuel : nat) (parts : list Node) (result : list Segment)
  {struct fuel} : Run (list Segment) :=
  match fuel with
  | O => OutOfFuel
  | S fuel =>
    let toString (path : Node) : Run string :=
      (fun segs => join "." (segment_text <$> segs)) <$> toArray_while fuel [path] [] in
    match parts with
    | [] => Value (reverse result)
    | path :: parts =>
      match path with
      | CallExpression callee _ =>
          toArray_while fuel (parts ++ [callee]) result
      | MemberExpression object property computed =>
          let parts := parts ++ [object] in
          if computed then
            match resolveToValue property with
            | Some resolvedPath =>
                resolved ← toArray_while fuel [resolvedPath] [];
                toArray_while fuel parts (result ++ resolved)
            | None =>
                toArray_while fuel parts (result ++ [Str "<computed>"])
            end
          else
            toArray_while fuel parts (result ++ [name_of property])
      | Identifier name =>
          toArray_while fuel parts (result ++ [Str name])
      | Literal _ raw =>
          toArray_while fuel parts (result ++ [Str raw])
      | ThisExpression =>
          toArray_while fuel parts (result ++ [Str "this"])
      | ObjectExpression properties =>
          properties ← mapM (fun property : Node * Node =>
                               key ← toString property.1;
                               value ← toString property.2;
                               Value (key +:+ ": " +:+ value)) properties;
          toArray_while fuel parts
            (result ++ [Str ("{" +:+ join ", " properties +:+ "}")])
      | ArrayExpression elements =>
          elements ← mapM (fun element : option Node =>
                             match element with
                             | Some path => toString path
                             | None => Raise TypeError
                             end) elements;
          toArray_while fuel parts
            (result ++ [Str ("[" +:+ join ", " elements +:+ "]")])
      | OtherNode _ =>
          toArray_while fuel parts result
      end
    end
  end.

(** [toArray(path)] *)
Definition toArray (fuel : nat) (path : Node) : Run (list Segment) :=
  toArray_while fuel [path] [].

(** [toString(path)] *)
Definition toString (fuel : nat) (path : Node) : Run string :=
  (fun segs => join "." (segment_text <$> segs)) <$> toArray fuel path.

End WithResolver.
End ExpressionTo.

(** * Shapes of expressions the properties speak of *)

(** The chain [root.p1.p2...] of static property accesses. *)
Definition staticChain (root : string) (props : list string) : Node :=
  foldl (fun object p => MemberExpression object (Identifier p) false)
        (Identifier root) props.

(** The places of an expression that the queue of [toArray] reaches from
    its root: under the callee of a call, under the object of a property
    access. *)
Inductive SpineFrame : Type :=
| CalleeOf (arguments : list Node)
| ObjectOf (property : Node) (computed : bool).

Definition plugFrame (fr : SpineFrame) (inner : Node) : Node :=
  match fr with
  | CalleeOf arguments => CallExpression inner arguments
  | ObjectOf property computed => MemberExpression inner property computed
  end.

(** [plug ctx inner]: [inner] below the frames of [ctx], innermost first. *)
Definition plug (ctx : list SpineFrame) (inner : Node) : Node :=
  foldl (fun n fr => plugFrame fr n) inner ctx.

(** Number of nodes of a tree (a hole is no node). *)
Fixpoint size (n : Node) : nat :=
  match n with
  | CallExpression callee arguments =>
      S (size callee + foldr (fun a acc => size a + acc) 0 arguments)
  | MemberExpression object property _ => S (size object + size property)
  | ObjectExpression properties =>
      S (foldr (fun kv acc =>
                  match kv with (k, v) => size k + size v + acc end) 0 properties)
  | ArrayExpression elements =>
      S (foldr (fun e acc =>
                  match e with Some n => size n + acc | None => acc end) 0 elements)
  | Identifier _ | Literal _ _ | ThisExpression | OtherNode _ => 1
  end.

(** The double quote character, and a string between double quotes. *)
Definition dquote : string := String (ascii_of_nat 34) EmptyString.
Definition quoted (s : string) : string := dquote +:+ s +:+ dquote.

Module Flatten.
Section WithResolver.

Variable resolveToValue : Node -> option Node.

(** [toArray] returns [segs] on [path]: some amount of fuel is enough. *)
Definition flattens (path : Node) (segs : list Segment) : Prop :=
  exists fuel, ExpressionTo.toArray resolveToValue fuel path = Value segs.

(** The text [toArray] makes of one property of an object literal. *)
Definition propertyText (fuel : nat) (property : Node * Node) : Run string :=
  key ← ExpressionTo.toString resolveToValue fuel property.1;
  value ← ExpressionTo.toString resolveToValue fuel property.2;
  Value (key +:+ ": " +:+ value).

(** The text [toArray] makes of one element of an array literal. *)
Definition elementText (fuel : nat) (element : option Node) : Run string :=
  match element with
  | Some path => ExpressionTo.toString resolveToValue fuel path
  | None => Raise TypeError
  end.

(** The nodes [toArray] goes on to from [path]: the one it pushes on
    the queue, and those it calls itself on (the resolved key of a
    computed access, the keys and values of an object literal, the
    elements of an array literal that are not holes). *)
Definition successors (path : Node) : list Node :=
  match path with
  | CallExpression callee _ => [callee]
  | MemberExpression object property computed =>
      object :: (if computed then option_list (resolveToValue property) else [])
  | ObjectExpression properties =>
      properties ≫= (fun kv : Node * Node => [kv.1; kv.2])
  | ArrayExpression elements => omap id elements
  | Identifier _ | Literal _ _ | ThisExpression | OtherNode _ => []
  end.

(** Resolution is well founded: [rank] goes down along [successors]. *)
Definition ranked (rank : Node -> nat) : Prop :=
  forall path next, next ∈ successors path -> rank next < rank path.

(** [path] is an array literal with a hole. *)
Definition hasHole (path : Node) : bool :=
  match path with
  | ArrayExpression elements =>
      existsb (fun e => match e with None => true | Some _ => false end) elements
  | _ => false
  end.

(** [toArray] gets from [path] to [next], in any number of steps. *)
Definition reaches : Node -> Node -> Prop :=
  rtc (fun path next => next ∈ successors path).

(** [toArray] gets from [path] to no array literal with a hole. *)
Definition holeFree (path : Node) : Prop :=
  forall next, reaches path next -> hasHole next = false.

End WithResolver.
End Flatten.

(** * The pipeline of [src/parse.js] *)

Module Parse.

(** How a call completes: it returns a value or throws one. *)
Inductive Completion (E A : Type) : Type :=
| Return (a : A)
| Throw (e : E).
Arguments Return {E A} a.
Arguments Throw {E A} e.

(** What [parse] can throw: [new Error(message)] from one of its own
    [throw] statements, or whatever one of the functions it calls threw. *)
Inductive Thrown (Exn : Type) : Type :=
| Error (message : string)
| Foreign (e : Exn).
Arguments Error {Exn} message.
Arguments Foreign {Exn} e.

#[global] Instance Completion_ret {E} : MRet (Completion E) := fun _ a => Return a.
#[global] Instance Completion_bind {E} : MBind (Completion E) :=
  fun _ _ f m => match m with Return a => f a | Throw e => Throw e end.
#[global] Instance Completion_fmap {E} : FMap (Completion E) :=
  fun _ _ f m => match m with Return a => Return (f a) | Throw e => Throw e end.

(** A call of a function that is not part of [parse.js]: what it throws
    goes through unchanged. *)
Definition call {Exn A} (m : Completion Exn A) : Completion (Thrown Exn) A :=
  match m with
  | Return a => Return a
  | Throw e => Throw (Foreign e)
  end.

(** [Array.prototype.forEach] with a callback that updates the state [S]
    in place: the elements in index order, stopping at the first throw. *)
Fixpoint forEach {E A S} (callback : A -> S -> Completion E S)
    (array : list A) (s : S) : Completion E S :=
  match array with
  | [] => Return s
  | a :: array => s' ← callback a s; forEach callback array s'
  end.

(** [Array.prototype.map]: the elements in index order, stopping at the
    first throw. *)
Fixpoint map {E A B} (callback : A -> Completion E B)
    (array : list A) : Completion E (list B) :=
  match array with
  | [] => Return []
  | a :: array => b ← callback a; bs ← map callback array; Return (b :: bs)
  end.

Definition ERROR_MISSING_DEFINITION : string :=
  "No suitable component definition found.".

(** What a resolver returns: an array of paths, one path, or a falsy
    value. *)
Inductive Resolved : Type :=
| IsArray (componentDefinitions : list Node)
| Truthy (componentDefinition : Node)
| Falsy.

(** The module object [recast], handed to the resolver. *)
Inductive Recast : Type := recast.

Section Pipeline.

(** [Documentation], [postProcessDocumentation], [buildParser] and
    [recast.parse] are imported by [parse.js]; [newDocumentation] is the
    record [new Documentation()] makes. *)
Context {Documentation DocumentationObject Options Parser Exn : Type}.
Variable newDocumentation : Documentation.
Variable toObject : Documentation -> DocumentationObject.
Variable postProcessDocumentation : DocumentationObject -> DocumentationObject.
Variable buildParser : Options -> Parser.
Variable recast_parse : string -> Parser -> Completion Exn Node.

(** A handler updates the record it is given, or throws. *)
Definition Handler : Type := Documentation -> Node -> Completion Exn Documentation.
Definition Resolver : Type := Node -> Recast -> Completion Exn Resolved.

(** No handler of the list throws. *)
Definition total (handlers : list Handler) : Prop :=
  Forall (fun handler : Handler =>
            forall documentation componentDefinition,
              exists documentation',
                handler documentation componentDefinition = Return documentation')
         handlers.

(** What [parse] returns: one object, an array of objects, or
    [undefined] (element 0 of an empty array). *)
Inductive Parsed : Type :=
| Object (documentation : DocumentationObject)
| Objects (documentations : list DocumentationObject)
| UndefinedObject.

(** The callback [executeHandlers] maps over the definitions. *)
Definition documentationOf (handlers : list Handler) (componentDefinition : Node)
  : Completion (Thrown Exn) DocumentationObject :=
  documentation ←
    forEach (fun handler documentation =>
               call (handler documentation componentDefinition))
            handlers newDocumentation;
  Return (postProcessDocumentation (toObject documentation)).

Definition executeHandlers (handlers : list Handler)
    (componentDefinitions : list Node)
  : Completion (Thrown Exn) (list DocumentationObject) :=
  map (documentationOf handlers) componentDefinitions.

(** [parse]; [recast_parse src parser] stands for
    [recast.parse(src, { parser }).program]. *)
Definition parse (src : string) (resolver : Resolver)
    (handlers : list Handler) (options : Options)
  : Completion (Thrown Exn) Parsed :=
  program ← call (recast_parse src (buildParser options));
  componentDefinitions ← call (resolver program recast);
  match componentDefinitions with
  | IsArray componentDefinitions =>
      if (length componentDefinitions =? 0)%nat
      then Throw (Error ERROR_MISSING_DEFINITION)
      else Objects <$> executeHandlers handlers componentDefinitions
  | Truthy componentDefinitions =>
      documentations ← executeHandlers handlers [componentDefinitions];
      Return (match documentations !! 0%nat with
              | Some documentation => Object documentation
              | None => UndefinedObject
              end)
  | Falsy => Throw (Error ERROR_MISSING_DEFINITION)
  end.

End Pipeline.
End Parse.

(** * Sample programs *)

Module Samples.

Definition foo : Node := Identifier "foo".

(** [var key = "bar"; foo[key]]: the key resolves to the string literal
    ["bar"], whose raw text has the quotes. *)
Definition barLiteral : Node := Literal (StringValue "bar") (quoted "bar").
Definition barResolver (path : Node) : option Node :=
  match path with
  | Identifier name => if (name =? "key")%string then Some barLiteral else None
  | _ => None
  end.
Definition fooKey : Node := MemberExpression foo (Identifier "key") true.

(** [foo[k]] where nothing is known of [k]. *)
Definition noResolver (path : Node) : option Node := None.
Definition fooUnknown : Node := MemberExpression foo (Identifier "k") true.

(** [var x = a.b; foo[x]]: the key resolves to a path of two segments. *)
Definition aDotB : Node := staticChain "a" ["b"].
Definition pathResolver (path : Node) : option Node :=
  match path with
  | Identifier name => if (name =? "x")%string then Some aDotB else None
  | _ => None
  end.
Definition fooX : Node := MemberExpression foo (Identifier "x") true.

(** [var x = foo[x]; foo[x]]: the key resolves to the access it is the
    key of. *)
Definition cyclicResolver (path : Node) : option Node :=
  match path with
  | Identifier name => if (name =? "x")%string then Some fooX else None
  | _ => None
  end.

(** [foo().bar] and [foo(1, q).bar] *)
Definition fooCallBar (arguments : list Node) : Node :=
  MemberExpression (CallExpression foo arguments) (Identifier "bar") false.

(** [(a + b).c]: the object is of a kind [toArray] does not handle. *)
Definition sumDotC : Node :=
  MemberExpression (OtherNode "BinaryExpression") (Identifier "c") false.

End Samples.

(** * A sample pipeline *)

Module Pipeline.
Import Parse.

(** Modelled from the spec: the Documentation Record of
    [src/Documentation.js], which is not among the sources here: named
    slots, each key at most once, a later write to a key replacing the
    earlier one.  A fresh record has no slot; [toObject] projects the
    slots as they are. *)
Definition newDocumentation : gmap string string := ∅.
Definition toObject (documentation : gmap string string) : gmap string string :=
  documentation.

(** Modelled from the spec: the Normalizer of
    [src/utils/postProcessDocumentation.js], which is not among the
    sources here: it removes the slots whose value is empty. *)
Definition postProcessDocumentation (object : gmap string string)
  : gmap string string :=
  filter (fun kv : string * string => kv.2 <> EmptyString) object.

(** A handler that writes a slot. *)
Definition writeSlot (key value : string)
  : @Handler (gmap string string) string :=
  fun documentation _ => Return (<[key := value]> documentation).


(** A handler that records the name of the definition it is given. *)
Definition displayNameHandler : @Handler (gmap string string) string :=
  fun documentation componentDefinition =>
    Return (match componentDefinition with
            | Identifier name => <["displayName" := name]> documentation
            | _ => documentation
            end).

(** A handler that throws on the definition named [name]. *)
Definition throwOn (name message : string)
  : @Handler (gmap string string) string :=
  fun documentation componentDefinition =>
    match componentDefinition with
    | Identifier name' =>
        if (name =? name')%string then Throw message else Return documentation
    | _ => Return documentation
    end.

(** A parser that takes every source for the same program, and
    resolvers that find two definitions, one, or none in it. *)
Definition buildParser (options : unit) : unit := options.
Definition recast_parse (src : string) (parser : unit) : Completion string Node :=
  Return (OtherNode "Program").
Definition findAll : Resolver (Exn := string) :=
  fun _ _ => Return (IsArray [Identifier "A"; Identifier "B"]).
Definition findOne : Resolver (Exn := string) :=
  fun _ _ => Return (Truthy (Identifier "A")).
Definition findB : Resolver (Exn := string) :=
  fun _ _ => Return (Truthy (Identifier "B")).
Definition findNone : Resolver (Exn := string) :=
  fun _ _ => Return (IsArray []).

Definition parse :=
  Parse.parse newDocumentation toObject postProcessDocumentation
              buildParser recast_parse.

End Pipeline.

(** * Further notions about expressions *)

Module Shapes.

(** No computed property access where [toArray] looks: on the way down
    the callees and objects, and in the keys, values and elements of the
    literals it prints.  The arguments of a call and the property of a
    static access are not looked at. *)
Fixpoint computedFree (n : Node) : bool :=
  match n with
  | CallExpression callee _ => computedFree callee
  | MemberExpression object _ computed => negb computed && computedFree object
  | ObjectExpression properties =>
      forallb (fun kv => match kv with (k, v) => computedFree k && computedFree v end)
              properties
  | ArrayExpression elements =>
      forallb (fun e => match e with Some n => computedFree n | None => true end)
              elements
  | Identifier _ | Literal _ _ | ThisExpression | OtherNode _ => true
  end.

(** No hole of an array literal in the same places. *)
Fixpoint noHole (n : Node) : bool :=
  match n with
  | CallExpression callee _ => noHole callee
  | MemberExpression object _ _ => noHole object
  | ObjectExpression properties =>
      forallb (fun kv => match kv with (k, v) => noHole k && noHole v end)
              properties
  | ArrayExpression elements =>
      forallb (fun e => match e with Some n => noHole n | None => false end)
              elements
  | Identifier _ | Literal _ _ | ThisExpression | OtherNode _ => true
  end.

(** [toString] returns [s] on [path]: some amount of fuel is enough. *)
Definition stringifies (resolveToValue : Node -> option Node)
    (path : Node) (s : string) : Prop :=
  exists fuel, ExpressionTo.toString resolveToValue fuel path = Value s.

(** Number literals; [[1, 2, 3]] and [{a: 1, b: 2}] *)
Definition number (n : Z) (raw : string) : Node := Literal (NumberValue n) raw.
Definition oneTwoThree : Node :=
  ArrayExpression [Some (number 1 "1"); Some (number 2 "2"); Some (number 3 "3")].

(** [[1, , 2]] *)
Definition oneHoleTwo : Node :=
  ArrayExpression [Some (number 1 "1"); None; Some (number 2 "2")].
Definition aOneBTwo : Node :=
  ObjectExpression [(Identifier "a", number 1 "1"); (Identifier "b", number 2 "2")].

(** [this.props.items] *)
Definition thisPropsItems : Node :=
  MemberExpression
    (MemberExpression ThisExpression (Identifier "props") false)
    (Identifier "items") false.

End Shapes.

(** * Properties of outcomes *)

Module RunFacts.

Lemma extends_refl {A} (m : Run A) : extends m m.
Proof. by right. Qed.

Lemma extends_Value {A} (m m' : Run A) a : extends m m' -> m = Value a -> m' = Value a.
Proof. intros [->| ->]; [done|auto]. Qed.

Lemma extends_finished {A} (m m' : Run A) : extends m m' -> m <> OutOfFuel -> m' = m.
Proof. by intros [->| ->]. Qed.

Lemma extends_bind {A B} (m m' : Run A) (k k' : A -> Run B) :
  extends m m' -> (forall a, extends (k a) (k' a)) ->
  extends (m ≫= k) (m' ≫= k').
Proof.
  intros [->| ->] Hk; [by left|].
  destruct m as [a| |]; simpl; [apply Hk|by right..].
Qed.

Lemma extends_fmap {A B} (f : A -> B) (m m' : Run A) :
  extends m m' -> extends (f <$> m) (f <$> m').
Proof. intros [->| ->]; [by left|by right]. Qed.

Lemma extends_mapM {A B} (g g' : A -> Run B) l :
  (forall x, x ∈ l -> extends (g x) (g' x)) -> extends (mapM g l) (mapM g' l).
Proof.
  induction l as [|x l IH]; intros Hg; [by right|]. simpl.
  apply extends_bind; [apply Hg; by left|]. intros y.
  apply extends_bind; [apply IH; intros ??; apply Hg; by right|].
  intros ys. by right.
Qed.

Lemma mapM_Value {A B} (g : A -> Run B) l ys :
  mapM g l = Value ys <-> Forall2 (fun x y => g x = Value y) l ys.
Proof.
  revert ys. induction l as [|x l IH]; intros ys; simpl.
  - split; [intros [= <-]; constructor|by inversion 1].
  - split.
    + destruct (g x) as [y| |] eqn:Hx; simpl; [|done..].
      destruct (mapM g l) as [ys'| |]; simpl; [|done..].
      intros [= <-]. constructor; [done|by apply IH].
    + inversion 1 as [|? y ? ys' Hx Hl]; subst. rewrite Hx. simpl.
      apply IH in Hl. by rewrite Hl.
Qed.

Lemma mapM_returns {A B} (g : A -> Run B) l :
  Forall (fun x => exists y, g x = Value y) l -> exists ys, mapM g l = Value ys.
Proof.
  induction 1 as [|x l [y Hy] _ [ys IH]]; [by exists []|].
  exists (y :: ys). apply mapM_Value. constructor; [done|]. by apply mapM_Value.
Qed.

Lemma mapM_Raise_inv {A B} (g : A -> Run B) l e :
  mapM g l = Raise e -> exists x, x ∈ l /\ g x = Raise e.
Proof.
  induction l as [|x l IH]; [done|]. simpl.
  destruct (g x) as [y| |] eqn:Hx; simpl; [| |done].
  - destruct (mapM g l) as [ys| |]; simpl; [done| |done].
    intros [= ->]. destruct IH as (x' & Hin & Hx'); [done|].
    exists x'. split; [by right|done].
  - intros [= ->]. exists x. split; [by left|done].
Qed.

Lemma mapM_ext_in {A B} (g g' : A -> Run B) l :
  (forall x, x ∈ l -> g x = g' x) -> mapM g l = mapM g' l.
Proof.
  induction l as [|x l IH]; intros Hg; [done|]. simpl.
  rewrite (Hg x) by (by left). rewrite IH; [done|].
  intros ??. apply Hg. by right.
Qed.

(** If each element has its result with some fuel, one amount of fuel
    gives all of them. *)
Lemma mapM_common_fuel {A B} (g : nat -> A -> Run B) (l : list A) (ys : list B) :
  (forall fuel fuel' x, fuel <= fuel' -> extends (g fuel x) (g fuel' x)) ->
  Forall2 (fun x y => exists fuel, g fuel x = Value y) l ys ->
  exists fuel, mapM (g fuel) l = Value ys.
Proof.
  intros Hmono. induction 1 as [|x y l ys [f Hy] _ [f' Hys]].
  - by exists 0.
  - exists (f `max` f'). apply mapM_Value. constructor.
    + eapply extends_Value; [|exact Hy]. apply Hmono. lia.
    + apply mapM_Value in Hys. eapply Forall2_impl; [exact Hys|].
      intros a b Hab. eapply extends_Value; [|exact Hab]. apply Hmono. lia.
Qed.

(** If each element ends with some fuel, one amount of fuel makes the
    whole array end. *)
Lemma mapM_finishes {A B} (g : nat -> A -> Run B) (l : list A) :
  (forall fuel fuel' x, fuel <= fuel' -> extends (g fuel x) (g fuel' x)) ->
  Forall (fun x => exists fuel, g fuel x <> OutOfFuel) l ->
  exists fuel, mapM (g fuel) l <> OutOfFuel.
Proof.
  intros Hmono. induction 1 as [|x l [f Hx] _ [f' Hl]].
  - by exists 0.
  - exists (f `max` f'). simpl.
    rewrite (extends_finished _ _ (Hmono f (f `max` f') x (Nat.le_max_l _ _)) Hx).
    destruct (g f x) as [y| |]; simpl; [|done..].
    assert (Hext : extends (mapM (g f') l) (mapM (g (f `max` f')) l)).
    { apply extends_mapM. intros ??. apply Hmono. lia. }
    rewrite (extends_finished _ _ Hext Hl).
    by destruct (mapM (g f') l).
Qed.

End RunFacts.

(** * Properties of [toArray] and [toString] *)

Module FlattenFacts.
Import ExpressionTo Flatten RunFacts.

Section WithResolver.

Variable resolveToValue : Node -> option Node.

Local Abbreviation toArray_while := (toArray_while resolveToValue).
Local Abbreviation toArray := (toArray resolveToValue).
Local Abbreviation toString := (toString resolveToValue).
Local Abbreviation flattens := (flattens resolveToValue).
Local Abbreviation successors := (successors resolveToValue).
Local Abbreviation reaches := (reaches resolveToValue).
Local Abbreviation holeFree := (holeFree resolveToValue).

(** More fuel does not change how a call ends. *)
Lemma toArray_while_extends fuel fuel' parts result :
  fuel <= fuel' ->
  extends (toArray_while fuel parts result) (toArray_while fuel' parts result).
Proof.
  revert fuel' parts result.
  induction fuel as [|fuel IH]; intros fuel' parts result Hle; [by left|].
  destruct fuel' as [|fuel']; [lia|].
  assert (Hle' : fuel <= fuel') by lia.
  assert (Hstr : forall p,
    extends ((fun segs => join "." (segment_text <$> segs)) <$> toArray_while fuel [p] [])
            ((fun segs => join "." (segment_text <$> segs)) <$> toArray_while fuel' [p] [])).
  { intros p. by apply extends_fmap, IH. }
  simpl.
  destruct parts as [|path parts]; [by right|].
  destruct path as [callee args|object property [|]|name|value raw| |props|elems|ty];
    try (by apply IH).
  - destruct (resolveToValue property) as [resolvedPath|]; [|by apply IH].
    apply extends_bind; [by apply IH|]. intros resolved. by apply IH.
  - apply extends_bind; [|intros texts; by apply IH].
    apply extends_mapM. intros [k v] _. simpl.
    apply extends_bind; [apply Hstr|]. intros ks.
    apply extends_bind; [apply Hstr|]. intros vs. apply extends_refl.
  - apply extends_bind; [|intros texts; by apply IH].
    apply extends_mapM. intros [e|] _; [apply Hstr|apply extends_refl].
Qed.

Lemma toArray_extends fuel fuel' path :
  fuel <= fuel' -> extends (toArray fuel path) (toArray fuel' path).
Proof. apply toArray_while_extends. Qed.

Lemma toArray_mono fuel fuel' path segs :
  fuel <= fuel' -> toArray fuel path = Value segs -> toArray fuel' path = Value segs.
Proof. intros Hle. apply extends_Value. by apply toArray_extends. Qed.

(** What is already in [result] ends up, reversed, behind what the loop
    adds: the loop never reads [result]. *)
Lemma toArray_while_result fuel parts result :
  toArray_while fuel parts result
  = (fun out => out ++ reverse result) <$> toArray_while fuel parts [].
Proof.
  revert parts result.
  induction fuel as [|fuel IH]; intros parts result; [done|].
  assert (Hpush : forall parts result added,
    toArray_while fuel parts (result ++ added)
    = (fun out => out ++ reverse result) <$> toArray_while fuel parts added).
  { intros ps r added. rewrite (IH ps (r ++ added)), (IH ps added).
    destruct (toArray_while fuel ps []) as [out| |]; [|done..].
    simpl. by rewrite reverse_app, (assoc_L (++)). }
  simpl.
  destruct parts as [|path parts]; [done|].
  destruct path as [callee args|object property [|]|name|value raw| |props|elems|ty];
    try apply Hpush; try apply IH.
  - destruct (resolveToValue property) as [resolvedPath|]; [|apply Hpush].
    destruct (toArray_while fuel [resolvedPath] []) as [resolved| |]; [|done..].
    simpl. apply Hpush.
  - match goal with |- (mapM ?g _ ≫= _) = _ => destruct (mapM g props) end;
      [|done..].
    simpl. apply Hpush.
  - match goal with |- (mapM ?g _ ≫= _) = _ => destruct (mapM g elems) end;
      [|done..].
    simpl. apply Hpush.
Qed.

(** ** One equation per node kind *)

Lemma toArray_call fuel callee args :
  toArray (S fuel) (CallExpression callee args) = toArray fuel callee.
Proof. done. Qed.

Lemma toArray_static fuel object property :
  toArray (S fuel) (MemberExpression object property false)
  = (fun segs => segs ++ [name_of property]) <$> toArray fuel object.
Proof. unfold toArray. simpl. by rewrite toArray_while_result. Qed.

Lemma toArray_unresolved fuel object property :
  resolveToValue property = None ->
  toArray (S fuel) (MemberExpression object property true)
  = (fun segs => segs ++ [Str "<computed>"]) <$> toArray fuel object.
Proof.
  intros Hres. unfold toArray. simpl. rewrite Hres.
  by rewrite toArray_while_result.
Qed.

Lemma toArray_resolved fuel object property resolvedPath :
  resolveToValue property = Some resolvedPath ->
  toArray (S fuel) (MemberExpression object property true)
  = resolved ← toArray fuel resolvedPath;
    (fun segs => segs ++ reverse resolved) <$> toArray fuel object.
Proof.
  intros Hres. unfold toArray. simpl. rewrite Hres.
  destruct (toArray_while fuel [resolvedPath] []) as [resolved| |]; [|done..].
  simpl. by rewrite toArray_while_result.
Qed.

Lemma toArray_identifier fuel name :
  toArray (S (S fuel)) (Identifier name) = Value [Str name].
Proof. done. Qed.

Lemma toArray_literal fuel value raw :
  toArray (S (S fuel)) (Literal value raw) = Value [Str raw].
Proof. done. Qed.

Lemma toArray_this fuel :
  toArray (S (S fuel)) ThisExpression = Value [Str "this"].
Proof. done. Qed.

Lemma toArray_other fuel ty :
  toArray (S (S fuel)) (OtherNode ty) = Value [].
Proof. done. Qed.

Lemma toArray_object fuel props :
  toArray (S (S fuel)) (ObjectExpression props)
  = texts ← mapM (propertyText resolveToValue (S fuel)) props;
    Value [Str ("{" +:+ join ", " texts +:+ "}")].
Proof. done. Qed.

Lemma toArray_array fuel elems :
  toArray (S (S fuel)) (ArrayExpression elems)
  = texts ← mapM (elementText resolveToValue (S fuel)) elems;
    Value [Str ("[" +:+ join ", " texts +:+ "]")].
Proof. done. Qed.

Lemma toString_extends fuel fuel' path :
  fuel <= fuel' -> extends (toString fuel path) (toString fuel' path).
Proof. intros Hle. by apply extends_fmap, toArray_extends. Qed.

Lemma toString_mono fuel fuel' path s :
  fuel <= fuel' -> toString fuel path = Value s -> toString fuel' path = Value s.
Proof. intros Hle. apply extends_Value. by apply toString_extends. Qed.

Lemma propertyText_extends fuel fuel' property :
  fuel <= fuel' ->
  extends (propertyText resolveToValue fuel property)
          (propertyText resolveToValue fuel' property).
Proof.
  intros Hle. unfold propertyText.
  apply extends_bind; [by apply toString_extends|]. intros ks.
  apply extends_bind; [by apply toString_extends|]. intros vs.
  apply extends_refl.
Qed.

Lemma elementText_extends fuel fuel' element :
  fuel <= fuel' ->
  extends (elementText resolveToValue fuel element)
          (elementText resolveToValue fuel' element).
Proof.
  intros Hle. destruct element; [by apply toString_extends|apply extends_refl].
Qed.

(** ** Termination *)

(** With a rank that goes down along [successors], [toArray] ends on
    every node: it returns or it throws. *)
Lemma toArray_finishes rank :
  ranked resolveToValue rank ->
  forall path, exists fuel, toArray fuel path <> OutOfFuel.
Proof.
  intros Hrank path.
  remember (rank path) as m eqn:Hm. revert path Hm.
  induction m as [m IH] using lt_wf_ind. intros path ->.
  assert (Hnext : forall next, next ∈ successors path ->
            exists fuel, toArray fuel next <> OutOfFuel).
  { intros next Hin. eapply IH; [|reflexivity]. by apply Hrank. }
  assert (Hstr : forall next, next ∈ successors path ->
            exists fuel, toString fuel next <> OutOfFuel).
  { intros next Hin. destruct (Hnext next Hin) as (f & H).
    exists f. unfold ExpressionTo.toString. by destruct (toArray f next). }
  destruct path as [callee args|object property [|]|name|value raw| |props|elems|ty].
  - destruct (Hnext callee) as (f & H); [set_solver|]. by exists (S f).
  - destruct (Hnext object) as (f & H); [set_solver|].
    destruct (resolveToValue property) as [resolvedPath|] eqn:Hres.
    + destruct (Hnext resolvedPath) as (f' & H').
      { simpl. rewrite Hres. set_solver. }
      exists (S (f `max` f')).
      rewrite (toArray_resolved _ _ _ _ Hres).
      rewrite (extends_finished _ _
                 (toArray_extends f' (f `max` f') _ (Nat.le_max_r _ _)) H').
      rewrite (extends_finished _ _
                 (toArray_extends f (f `max` f') _ (Nat.le_max_l _ _)) H).
      destruct (toArray f' resolvedPath); simpl; [|done..].
      by destruct (toArray f object).
    + exists (S f). rewrite toArray_unresolved by done.
      by destruct (toArray f object).
  - destruct (Hnext object) as (f & H); [set_solver|].
    exists (S f). rewrite toArray_static. by destruct (toArray f object).
  - by exists 2.
  - by exists 2.
  - by exists 2.
  - destruct (mapM_finishes (propertyText resolveToValue) props) as (f & H).
    { intros ????. by apply propertyText_extends. }
    { apply Forall_forall. intros [k v] Hin.
      destruct (Hstr k) as (f & Hk).
      { simpl. apply list_elem_of_bind. exists (k, v). set_solver. }
      destruct (Hstr v) as (f' & Hv).
      { simpl. apply list_elem_of_bind. exists (k, v). set_solver. }
      exists (f `max` f'). unfold propertyText. simpl.
      rewrite (extends_finished _ _
                 (toString_extends f (f `max` f') _ (Nat.le_max_l _ _)) Hk).
      rewrite (extends_finished _ _
                 (toString_extends f' (f `max` f') _ (Nat.le_max_r _ _)) Hv).
      destruct (toString f k); simpl; [|done..].
      by destruct (toString f' v). }
    exists (S (S f)). rewrite toArray_object.
    assert (Hext : extends (mapM (propertyText resolveToValue f) props)
                     (mapM (propertyText resolveToValue (S f)) props)).
    { apply extends_mapM. intros ??. apply propertyText_extends. lia. }
    rewrite (extends_finished _ _ Hext H).
    by destruct (mapM (propertyText resolveToValue f) props).
  - destruct (mapM_finishes (elementText resolveToValue) elems) as (f & H).
    { intros ????. by apply elementText_extends. }
    { apply Forall_forall. intros [e|] Hin; [|by exists 0].
      apply Hstr. simpl. apply list_elem_of_omap. by exists (Some e). }
    exists (S (S f)). rewrite toArray_array.
    assert (Hext : extends (mapM (elementText resolveToValue f) elems)
                     (mapM (elementText resolveToValue (S f)) elems)).
    { apply extends_mapM. intros ??. apply elementText_extends. lia. }
    rewrite (extends_finished _ _ Hext H).
    by destruct (mapM (elementText resolveToValue f) elems).
  - by exists 2.
Qed.

Lemma reaches_successor path next via :
  next ∈ successors path -> reaches next via -> reaches path via.
Proof. intros Hin Hvia. by eapply rtc_l. Qed.

(** [toArray] throws only where it got to an array literal with a hole. *)
Lemma toArray_while_Raise fuel parts result e :
  toArray_while fuel parts result = Raise e ->
  exists path next,
    path ∈ parts /\ reaches path next /\ hasHole next = true.
Proof.
  revert parts result.
  induction fuel as [|fuel IH]; intros parts result; [done|].
  assert (Hstr : forall p,
    (fun segs => join "." (segment_text <$> segs)) <$> toArray_while fuel [p] []
    = Raise e ->
    exists next, reaches p next /\ hasHole next = true).
  { intros p Hp.
    destruct (toArray_while fuel [p] []) as [segs| |] eqn:E; [done| |done].
    injection Hp as ->.
    destruct (IH _ _ E) as (p' & next & Hin & Hnext & Hhole).
    apply list_elem_of_singleton in Hin as ->. by exists next. }
  assert (Hqueue : forall path rest next result',
    next ∈ successors path ->
    toArray_while fuel (rest ++ [next]) result' = Raise e ->
    exists p via, p ∈ path :: rest /\ reaches p via /\ hasHole via = true).
  { intros path rest next result' Hnext H.
    destruct (IH _ _ H) as (p & via & Hp & Hvia & Hhole).
    apply elem_of_app in Hp as [Hp|Hp].
    - exists p, via. split; [by right|done].
    - apply list_elem_of_singleton in Hp as ->.
      exists path, via. split; [by left|].
      split; [by eapply reaches_successor|done]. }
  assert (Hrest : forall path rest result',
    toArray_while fuel rest result' = Raise e ->
    exists p via, p ∈ path :: rest /\ reaches p via /\ hasHole via = true).
  { intros path rest result' H.
    destruct (IH _ _ H) as (p & via & Hp & Hvia & Hhole).
    exists p, via. split; [by right|done]. }
  simpl.
  destruct parts as [|path parts]; [done|].
  destruct path as [callee args|object property computed|name|value raw| |props|elems|ty];
    try (by apply Hrest).
  - apply Hqueue. set_solver.
  - destruct computed.
    + destruct (resolveToValue property) as [resolvedPath|] eqn:Hres.
      * destruct (toArray_while fuel [resolvedPath] []) as [resolved| |] eqn:E;
          simpl; [| |done].
        -- apply Hqueue. set_solver.
        -- intros [= ->].
           destruct (IH _ _ E) as (p & via & Hp & Hvia & Hhole).
           apply list_elem_of_singleton in Hp as ->.
           exists (MemberExpression object property true), via.
           split; [by left|]. split; [|done].
           eapply reaches_successor; [|done]. simpl. rewrite Hres. set_solver.
      * apply Hqueue. set_solver.
    + apply Hqueue. set_solver.
  - match goal with |- (mapM ?g _ ≫= _) = _ -> _ =>
      destruct (mapM g props) as [texts| |] eqn:E end; simpl; [| |done].
    + apply Hrest.
    + intros [= ->]. apply mapM_Raise_inv in E as ([k v] & Hin & Hkv).
      simpl in Hkv.
      assert (exists next, next ∈ [k; v]
                /\ exists via, reaches next via /\ hasHole via = true)
        as (next & Hnext & via & Hvia & Hhole).
      { match type of Hkv with (?m ≫= _) = _ =>
          destruct m as [ks| |] eqn:Ek end; simpl in Hkv; [| |done].
        - match type of Hkv with (?m ≫= _) = _ =>
            destruct m as [vs| |] eqn:Ev end; simpl in Hkv; [done| |done].
          injection Hkv as ->. exists v. split; [set_solver|]. by apply Hstr.
        - injection Hkv as ->. exists k. split; [set_solver|]. by apply Hstr. }
      exists (ObjectExpression props), via. split; [by left|]. split; [|done].
      eapply reaches_successor; [|done].
      simpl. apply list_elem_of_bind. by exists (k, v).
  - match goal with |- (mapM ?g _ ≫= _) = _ -> _ =>
      destruct (mapM g elems) as [texts| |] eqn:E end; simpl; [| |done].
    + apply Hrest.
    + intros [= ->]. apply mapM_Raise_inv in E as ([el|] & Hin & Hel).
      * destruct (Hstr el Hel) as (via & Hvia & Hhole).
        exists (ArrayExpression elems), via. split; [by left|]. split; [|done].
        eapply reaches_successor; [|done].
        simpl. apply list_elem_of_omap. by exists (Some el).
      * exists (ArrayExpression elems), (ArrayExpression elems).
        split; [by left|]. split; [apply rtc_refl|].
        simpl. apply existsb_exists. exists None.
        split; [by apply list_elem_of_In|done].
Qed.

Lemma toArray_Raise fuel path e :
  toArray fuel path = Raise e ->
  exists next, reaches path next /\ hasHole next = true.
Proof.
  intros H. apply toArray_while_Raise in H as (p & next & Hin & Hnext & Hhole).
  apply list_elem_of_singleton in Hin as ->. by exists next.
Qed.

(** With a rank that goes down along [successors], [toArray] returns on
    every node from which it gets to no hole. *)
Lemma toArray_returns rank :
  ranked resolveToValue rank ->
  forall path, holeFree path -> exists fuel segs, toArray fuel path = Value segs.
Proof.
  intros Hrank path Hfree.
  destruct (toArray_finishes rank Hrank path) as [fuel H].
  exists fuel. destruct (toArray fuel path) as [segs|e|] eqn:E; [by exists segs| |done].
  apply toArray_Raise in E as (next & Hnext & Hhole).
  rewrite (Hfree next Hnext) in Hhole. done.
Qed.

(** ** The same, for [flattens] *)

Lemma flattens_fun path segs segs' :
  flattens path segs -> flattens path segs' -> segs = segs'.
Proof.
  intros [f Hf] [f' Hf'].
  apply (toArray_mono _ (f `max` f')) in Hf; [|lia].
  apply (toArray_mono _ (f `max` f')) in Hf'; [|lia].
  congruence.
Qed.

Lemma flattens_call callee args segs :
  flattens (CallExpression callee args) segs <-> flattens callee segs.
Proof.
  split; intros [fuel H].
  - destruct fuel as [|fuel]; [done|]. by exists fuel.
  - by exists (S fuel).
Qed.

Lemma flattens_static object property segs :
  flattens (MemberExpression object property false) segs
  <-> exists segs', flattens object segs' /\ segs = segs' ++ [name_of property].
Proof.
  split.
  - intros [[|fuel] H]; [done|]. rewrite toArray_static in H.
    destruct (toArray fuel object) as [segs'| |] eqn:E; [|done..].
    exists segs'. split; [by exists fuel|]. by injection H.
  - intros (segs' & [fuel H] & ->). exists (S fuel).
    by rewrite toArray_static, H.
Qed.

Lemma flattens_unresolved object property segs :
  resolveToValue property = None ->
  flattens (MemberExpression object property true) segs
  <-> exists segs', flattens object segs' /\ segs = segs' ++ [Str "<computed>"].
Proof.
  intros Hres. split.
  - intros [[|fuel] H]; [done|]. rewrite toArray_unresolved in H by done.
    destruct (toArray fuel object) as [segs'| |] eqn:E; [|done..].
    exists segs'. split; [by exists fuel|]. by injection H.
  - intros (segs' & [fuel H] & ->). exists (S fuel).
    by rewrite toArray_unresolved, H.
Qed.

Lemma flattens_resolved object property resolvedPath segs :
  resolveToValue property = Some resolvedPath ->
  flattens (MemberExpression object property true) segs
  <-> exists segs' resolved,
        flattens object segs' /\ flattens resolvedPath resolved
        /\ segs = segs' ++ reverse resolved.
Proof.
  intros Hres. split.
  - intros [[|fuel] H]; [done|].
    rewrite (toArray_resolved _ _ _ _ Hres) in H.
    destruct (toArray fuel resolvedPath) as [resolved| |] eqn:Er; [|done..].
    simpl in H.
    destruct (toArray fuel object) as [segs'| |] eqn:E; [|done..].
    exists segs', resolved. repeat split; [by exists fuel..|]. by injection H.
  - intros (segs' & resolved & [f H] & [f' H'] & ->).
    exists (S (f `max` f')). rewrite (toArray_resolved _ _ _ _ Hres).
    rewrite (toArray_mono _ _ _ _ (Nat.le_max_r f f') H'). simpl.
    by rewrite (toArray_mono _ _ _ _ (Nat.le_max_l f f') H).
Qed.

Lemma flattens_returns rank :
  ranked resolveToValue rank ->
  forall path, holeFree path -> exists segs, flattens path segs.
Proof.
  intros Hrank path Hfree.
  destruct (toArray_returns rank Hrank path Hfree) as (fuel & segs & H).
  exists segs. by exists fuel.
Qed.

(** Below the frames of a context, only what the inner node flattens to
    matters. *)
Lemma flattens_plug ctx inner inner' :
  (forall segs, flattens inner segs <-> flattens inner' segs) ->
  forall segs, flattens (plug ctx inner) segs <-> flattens (plug ctx inner') segs.
Proof.
  intros Hin. induction ctx as [|fr ctx IH] using rev_ind; [done|].
  intros segs. unfold plug in *. rewrite !foldl_snoc.
  destruct fr as [args|property [|]]; simpl.
  - by rewrite !flattens_call.
  - destruct (resolveToValue property) as [resolvedPath|] eqn:Hres.
    + rewrite !(flattens_resolved _ _ _ _ Hres).
      by setoid_rewrite IH.
    + rewrite !flattens_unresolved by done. by setoid_rewrite IH.
  - rewrite !flattens_static. by setoid_rewrite IH.
Qed.

(** ** Trees in which keys resolve to nothing larger *)

Lemma size_pos path : 0 < size path.
Proof. destruct path; simpl; lia. Qed.

Lemma size_element (e : Node) elems :
  Some e ∈ elems ->
  size e <= foldr (fun e acc => match e with Some n => size n + acc | None => acc end)
                  0 elems.
Proof.
  induction elems as [|a elems IH]; intros Hin; [set_solver|].
  simpl. apply elem_of_cons in Hin as [<-|Hin]; [lia|].
  specialize (IH Hin). destruct a; lia.
Qed.

Lemma size_property (k v : Node) props :
  (k, v) ∈ props ->
  size k + size v
  <= foldr (fun kv acc => match kv with (k, v) => size k + size v + acc end)
           0 props.
Proof.
  induction props as [|[k' v'] props IH]; intros Hin; [set_solver|].
  simpl. apply elem_of_cons in Hin as [[= -> ->]|Hin]; [lia|].
  specialize (IH Hin). lia.
Qed.

Lemma ranked_size :
  (forall property resolvedPath,
      resolveToValue property = Some resolvedPath ->
      size resolvedPath <= size property) ->
  ranked resolveToValue size.
Proof.
  intros Hsmall path next Hin.
  destruct path as [callee args|object property computed|name|value raw| |props|elems|ty];
    simpl in *; try (by apply elem_of_nil in Hin).
  - apply list_elem_of_singleton in Hin as ->. lia.
  - apply elem_of_cons in Hin as [->|Hin]; [lia|].
    destruct computed; [|set_solver].
    destruct (resolveToValue property) as [resolvedPath|] eqn:Hres; [|set_solver].
    apply list_elem_of_singleton in Hin as ->.
    specialize (Hsmall _ _ Hres). lia.
  - apply list_elem_of_bind in Hin as ([k v] & Hin & Hkv).
    pose proof (size_property _ _ _ Hkv) as Hle.
    pose proof (size_pos k). pose proof (size_pos v).
    simpl in Hin. apply elem_of_cons in Hin as [->|Hin]; [lia|].
    apply list_elem_of_singleton in Hin as ->. lia.
  - apply list_elem_of_omap in Hin as (e & Hin & He). simpl in He. subst e.
    pose proof (size_element _ _ Hin). lia.
Qed.

End WithResolver.

Lemma barResolver_small property resolvedPath :
  Samples.barResolver property = Some resolvedPath ->
  size resolvedPath <= size property.
Proof.
  destruct property as [| |name| | | | |]; try done. simpl.
  destruct (name =? "key")%string; [|done]. intros [= <-]. simpl. lia.
Qed.

End FlattenFacts.

(** ** What the specification states of [toArray] and [toString] *)

Module PathSpec.
Import ExpressionTo Flatten RunFacts FlattenFacts Samples Shapes.

(** C3: a chain [root.p1.p2...] of static property accesses flattens to
    its names from the root to the leaf, [[root; p1; p2; ...]], and
    [toString] gives them joined by dots; one loop iteration per access,
    one for the root and one to leave the loop are enough. *)
Theorem static_chain_root_to_leaf (resolveToValue : Node -> option Node)
    (root : string) (props : list string) (k : nat) :
  toArray resolveToValue (length props + 2 + k) (staticChain root props)
  = Value (Str <$> root :: props)
  /\ toString resolveToValue (length props + 2 + k) (staticChain root props)
     = Value (join "." (root :: props)).
Proof.
  assert (H : toArray resolveToValue (length props + 2 + k) (staticChain root props)
              = Value (Str <$> root :: props)).
  { induction props as [|p props IH] using rev_ind; [done|].
    unfold staticChain in *. rewrite foldl_snoc, length_app. simpl length.
    replace (length props + 1 + 2 + k) with (S (length props + 2 + k)) by lia.
    rewrite toArray_static, IH. simpl. by rewrite fmap_app. }
  split; [done|].
  assert (Htext : segment_text <$> (Str <$> root :: props) = root :: props).
  { rewrite <- list_fmap_compose. apply list_fmap_id. }
  unfold toString. rewrite H.
  change (Value (join "." (segment_text <$> (Str <$> root :: props)))
          = Value (join "." (root :: props))).
  by rewrite Htext.
Qed.

(** C4, as the specification states it, fails: with [var key = "bar"],
    the key of [foo[key]] resolves to the string literal ["bar"] and the
    path is [foo] followed by the literal's raw text, quotes included;
    it is never [[foo; bar]]. *)
Lemma computed_string_literal_keeps_quotes :
  barResolver (Identifier "key") = Some (Literal (StringValue "bar") (quoted "bar"))
  /\ toArray barResolver 3 fooKey = Value [Str "foo"; Str (quoted "bar")]
  /\ forall fuel, toArray barResolver fuel fooKey <> Value [Str "foo"; Str "bar"].
Proof.
  repeat split. intros fuel H.
  assert (E : [Str "foo"; Str "bar"] = [Str "foo"; Str (quoted "bar")]).
  { eapply (flattens_fun barResolver fooKey); [by exists fuel|by exists 3]. }
  vm_compute in E. discriminate.
Qed.

(** C4, amended: a computed access on the root identifier [foo] whose key
    resolves to a literal flattens to [foo] followed by the raw text of
    that literal (for the string literal ["bar"], the text with its
    quotes); when the key does not resolve, to [foo] followed by
    ["<computed>"]. *)
Theorem computed_key_segment (resolveToValue : Node -> option Node)
    (key : Node) (k : nat) :
  (forall value raw,
      resolveToValue key = Some (Literal value raw) ->
      toArray resolveToValue (3 + k) (MemberExpression (Identifier "foo") key true)
      = Value [Str "foo"; Str raw])
  /\ (resolveToValue key = None ->
      toArray resolveToValue (3 + k) (MemberExpression (Identifier "foo") key true)
      = Value [Str "foo"; Str "<computed>"]).
Proof.
  split.
  - intros value raw Hres. simpl plus.
    by rewrite (toArray_resolved _ _ _ _ _ Hres).
  - intros Hres. simpl plus. by rewrite toArray_unresolved.
Qed.

Lemma computed_key_segment_witness :
  toArray barResolver 3 fooKey = Value [Str "foo"; Str (quoted "bar")]
  /\ toArray noResolver 3 fooUnknown = Value [Str "foo"; Str "<computed>"].
Proof.
  split.
  - exact (proj1 (computed_key_segment barResolver (Identifier "key") 0)
                 (StringValue "bar") (quoted "bar") eq_refl).
  - exact (proj2 (computed_key_segment noResolver (Identifier "k") 0) eq_refl).
Defined.

(** C5: with [var x = a.b], the resolved key [a.b] flattens on its own to
    [[a; b]], and [foo[x]] flattens to [[foo; b; a]]: the segments of the
    resolved key are in the path, in the reverse of their own order. *)
Theorem resolved_key_spliced_reversed :
  pathResolver (Identifier "x") = Some aDotB
  /\ toArray pathResolver 3 aDotB = Value [Str "a"; Str "b"]
  /\ toArray pathResolver 4 fooX = Value [Str "foo"; Str "b"; Str "a"].
Proof. repeat split. Qed.

(** C6: wherever the queue of [toArray] meets a call, the path is that of
    the same expression with the call replaced by its callee, whatever
    the arguments are; so [foo(...).bar] flattens to [[foo; bar]]. *)
Theorem call_contributes_no_segment (resolveToValue : Node -> option Node) :
  (forall ctx callee arguments segs,
      flattens resolveToValue (plug ctx (CallExpression callee arguments)) segs
      <-> flattens resolveToValue (plug ctx callee) segs)
  /\ (forall arguments k,
        toArray resolveToValue (4 + k) (fooCallBar arguments)
        = Value [Str "foo"; Str "bar"]).
Proof.
  split.
  - intros ctx callee arguments. apply flattens_plug.
    intros segs. apply flattens_call.
  - done.
Qed.

(** An invariant that [successors] keeps and that excludes holes shows
    [holeFree]. *)
Lemma holeFree_invariant (resolveToValue : Node -> option Node)
    (inv : Node -> Prop) (path : Node) :
  (forall n next, inv n -> next ∈ successors resolveToValue n -> inv next) ->
  (forall n, inv n -> hasHole n = false) ->
  inv path -> holeFree resolveToValue path.
Proof.
  intros Hstep Hinv Hpath next Hnext. apply Hinv.
  induction Hnext as [|n n' n'' Hn _ IH]; [done|].
  apply IH. by eapply Hstep.
Qed.

Lemma fooKey_holeFree : holeFree barResolver fooKey.
Proof.
  apply (holeFree_invariant barResolver
           (fun n => n = fooKey \/ n = foo \/ n = barLiteral)); [| |by left].
  - intros n next [->|[->| ->]] Hin; simpl in Hin; [|by apply elem_of_nil in Hin..].
    apply elem_of_cons in Hin as [->|Hin]; [by right; left|].
    apply list_elem_of_singleton in Hin as ->. by right; right.
  - by intros n [->|[->| ->]].
Qed.

(** C9, as the specification states it, fails.  With [var x = foo[x]], the
    key of [foo[x]] resolves to [foo[x]] itself, and neither [toArray] nor
    [toString] returns on it, whatever the fuel (the recursion does not
    end).  And on [[1, , 2]], with any resolver, [toArray] and [toString]
    throw a [TypeError] at the hole. *)
Lemma cyclic_key_no_result :
  (forall fuel segs, toArray cyclicResolver fuel fooX <> Value segs)
  /\ (forall fuel s, toString cyclicResolver fuel fooX <> Value s)
  /\ (forall resolveToValue k,
        toArray resolveToValue (3 + k) oneHoleTwo = Raise TypeError
        /\ toString resolveToValue (3 + k) oneHoleTwo = Raise TypeError).
Proof.
  assert (H : forall fuel, toArray cyclicResolver fuel fooX = OutOfFuel).
  { induction fuel as [|fuel IH]; [done|].
    unfold fooX at 1.
    rewrite (toArray_resolved cyclicResolver fuel foo (Identifier "x") fooX eq_refl).
    by rewrite IH. }
  split; [|split].
  - intros fuel ?. by rewrite H.
  - intros fuel ?. unfold toString. by rewrite H.
  - done.
Qed.

(** C9, amended: when resolution is well founded (some rank of the nodes
    goes down from a node to the nodes [toArray] goes on to, the resolved
    key of a computed access among them), [toArray] and [toString] return
    on every node from which [toArray] gets to no array literal with a
    hole; a computed key that does not resolve gives the segment
    ["<computed>"]; a node of another kind gives no segment, alone or as
    the object of an access. *)
Theorem toArray_returns_when_ranked (resolveToValue : Node -> option Node)
    (rank : Node -> nat) :
  ranked resolveToValue rank ->
  (forall path,
      holeFree resolveToValue path ->
      exists fuel segs,
        toArray resolveToValue fuel path = Value segs
        /\ toString resolveToValue fuel path
           = Value (join "." (segment_text <$> segs)))
  /\ (forall object property segs,
        resolveToValue property = None ->
        flattens resolveToValue object segs ->
        flattens resolveToValue (MemberExpression object property true)
                 (segs ++ [Str "<computed>"]))
  /\ (forall ty k, toArray resolveToValue (2 + k) (OtherNode ty) = Value [])
  /\ (forall ty property k,
        toArray resolveToValue (3 + k) (MemberExpression (OtherNode ty) property false)
        = Value [name_of property]).
Proof.
  intros Hrank. split; [|split; [|split]].
  - intros path Hfree.
    destruct (toArray_returns _ rank Hrank path Hfree) as (fuel & segs & H).
    exists fuel, segs. split; [done|]. unfold toString. by rewrite H.
  - intros object property segs Hres Hobj.
    apply flattens_unresolved; [done|]. by exists segs.
  - done.
  - intros ty property k. simpl plus. by rewrite toArray_static.
Qed.

Lemma toArray_returns_when_ranked_witness :
  (exists fuel segs,
      toArray barResolver fuel fooKey = Value segs
      /\ toString barResolver fuel fooKey = Value (join "." (segment_text <$> segs)))
  /\ toArray barResolver 3 sumDotC = Value [Str "c"].
Proof.
  pose proof (toArray_returns_when_ranked barResolver size
                (ranked_size _ barResolver_small)) as (Hret & _ & _ & Hskip).
  split; [apply Hret, fooKey_holeFree
         |exact (Hskip "BinaryExpression" (Identifier "c") 0)].
Defined.

(** C10, as the specification states it, fails: the key of a computed
    access is expanded into what the resolver returns for it, which need
    not be a subtree; with [var x = foo[x]] it is [foo[x]] itself, and
    [toArray] runs out of any fuel on the finite tree [foo[x]]. *)
Lemma cyclic_key_diverges :
  cyclicResolver (Identifier "x") = Some fooX
  /\ size fooX = 3
  /\ forall fuel, toArray cyclicResolver fuel fooX = OutOfFuel.
Proof.
  repeat split.
  induction fuel as [|fuel IH]; [done|].
  unfold fooX at 1.
  rewrite (toArray_resolved cyclicResolver fuel foo (Identifier "x") fooX eq_refl).
  by rewrite IH.
Qed.

(** C10, amended: [toArray] terminates on every tree when resolution is
    well founded: some rank of the nodes goes down from a call to its
    callee, from an access to its object, from a literal to its keys,
    values and elements, and from a computed access to what its key
    resolves to.  It then ends the same way for any larger fuel: it
    returns, or it throws at the hole of an array literal; and it returns
    when it gets to no array literal with a hole. *)
Theorem toArray_terminates_when_ranked (resolveToValue : Node -> option Node)
    (rank : Node -> nat) :
  ranked resolveToValue rank ->
  forall path,
    (exists fuel out,
        out <> OutOfFuel
        /\ forall fuel', fuel <= fuel' -> toArray resolveToValue fuel' path = out)
    /\ (holeFree resolveToValue path ->
        exists fuel segs,
          forall fuel', fuel <= fuel' ->
                        toArray resolveToValue fuel' path = Value segs).
Proof.
  intros Hrank path. split.
  - destruct (toArray_finishes _ rank Hrank path) as (fuel & H).
    exists fuel, (toArray resolveToValue fuel path). split; [done|].
    intros fuel' Hle. by apply extends_finished; [apply toArray_extends|].
  - intros Hfree.
    destruct (toArray_returns _ rank Hrank path Hfree) as (fuel & segs & H).
    exists fuel, segs. intros fuel' Hle. by apply (toArray_mono _ fuel).
Qed.

Lemma toArray_terminates_when_ranked_witness :
  exists fuel segs,
    forall fuel', fuel <= fuel' -> toArray barResolver fuel' fooKey = Value segs.
Proof.
  apply (toArray_terminates_when_ranked barResolver size).
  - apply ranked_size, barResolver_small.
  - apply fooKey_holeFree.
Defined.

End PathSpec.
(** * Properties of [executeHandlers] and [parse] *)

Module ParseFacts.
Import Parse.

(** Reduce the binds of [Completion] on a known outcome. *)
Ltac completion :=
  cbv [mbind mret fmap Completion_bind Completion_ret Completion_fmap call] in *;
  cbn beta iota in *.

Section Arrays.

Context {E A B S : Type}.

Lemma forEach_app (callback : A -> S -> Completion E S) l1 l2 s :
  forEach callback (l1 ++ l2) s
  = s' ← forEach callback l1 s; forEach callback l2 s'.
Proof.
  revert s. induction l1 as [|a l1 IH]; intros s; [done|].
  simpl. destruct (callback a s) as [s'|e]; [apply IH|done].
Qed.

Lemma map_Return (callback : A -> Completion E B) l :
  Forall (fun a => exists b, callback a = Return b) l ->
  exists bs, map callback l = Return bs
             /\ Forall2 (fun a b => callback a = Return b) l bs.
Proof.
  induction 1 as [|a l [b Hb] _ (bs & Hbs & Hall)].
  - exists []. by split.
  - exists (b :: bs). simpl. rewrite Hb. simpl. rewrite Hbs. simpl.
    split; [done|]. by constructor.
Qed.

Lemma map_Throw (callback : A -> Completion E B) pre a post e :
  Forall (fun a => exists b, callback a = Return b) pre ->
  callback a = Throw e ->
  map callback (pre ++ a :: post) = Throw e.
Proof.
  intros Hpre Ha. induction Hpre as [|a' pre [b Hb] _ IH]; simpl.
  - by rewrite Ha.
  - rewrite Hb. simpl. by rewrite IH.
Qed.

(** A throw of [map] is a throw of its callback. *)
Lemma map_Throw_inv (callback : A -> Completion E B) l e :
  map callback l = Throw e -> exists a, a ∈ l /\ callback a = Throw e.
Proof.
  induction l as [|a l IH]; [done|]. simpl.
  destruct (callback a) as [b|e'] eqn:Ha; simpl.
  - destruct (map callback l) as [bs|e'']; [done|].
    intros [= ->]. destruct IH as (a' & Hin & Ha'); [done|].
    exists a'. split; [by right|done].
  - intros [= ->]. exists a. split; [by left|done].
Qed.

End Arrays.

Section Pipeline.

Context {Documentation DocumentationObject Options Parser Exn : Type}.
Variable newDocumentation : Documentation.
Variable toObject : Documentation -> DocumentationObject.
Variable postProcessDocumentation : DocumentationObject -> DocumentationObject.
Variable buildParser : Options -> Parser.
Variable recast_parse : string -> Parser -> Completion Exn Node.

Local Abbreviation Handler := (@Handler Documentation Exn).
Local Abbreviation documentationOf :=
  (documentationOf newDocumentation toObject postProcessDocumentation).
Local Abbreviation executeHandlers :=
  (executeHandlers newDocumentation toObject postProcessDocumentation).

(** The callback [executeHandlers] gives to [forEach]. *)
Local Abbreviation run componentDefinition :=
  (fun (handler : Handler) documentation =>
     call (handler documentation componentDefinition)).

Lemma forEach_total (handlers : list Handler) componentDefinition documentation :
  total handlers ->
  exists documentation',
    forEach (run componentDefinition) handlers documentation
    = Return documentation'.
Proof.
  intros Htotal. revert documentation.
  induction Htotal as [|handler handlers Hh _ IH]; intros documentation.
  - by eexists.
  - simpl. destruct (Hh documentation componentDefinition) as [d' ->].
    simpl. apply IH.
Qed.

Lemma documentationOf_total (handlers : list Handler) componentDefinition :
  total handlers ->
  exists object, documentationOf handlers componentDefinition = Return object.
Proof.
  intros Htotal.
  pose proof (forEach_total handlers componentDefinition newDocumentation Htotal)
    as [d' Hd].
  unfold Parse.documentationOf, Parse.Handler in *. rewrite Hd.
  by eexists.
Qed.

(** What [executeHandlers] throws was thrown by a handler. *)
Lemma forEach_no_Error (handlers : list Handler)
    componentDefinition documentation message :
  forEach (run componentDefinition) handlers documentation
  <> Throw (Error message).
Proof.
  revert documentation.
  induction handlers as [|handler handlers IH]; intros documentation; [done|].
  simpl. destruct (handler documentation componentDefinition); simpl; [apply IH|done].
Qed.

Lemma executeHandlers_no_Error (handlers : list Handler)
    componentDefinitions message :
  executeHandlers handlers componentDefinitions <> Throw (Error message).
Proof.
  intros H. apply map_Throw_inv in H as (cd & _ & H).
  unfold Parse.documentationOf in H.
  match type of H with context [forEach ?f ?l ?d] =>
    destruct (forEach f l d) as [d'|e] eqn:E end;
    completion; [discriminate|].
  injection H as ->. by apply forEach_no_Error in E.
Qed.

Lemma executeHandlers_one (handlers : list Handler) componentDefinition object :
  documentationOf handlers componentDefinition = Return object ->
  executeHandlers handlers [componentDefinition] = Return [object].
Proof. intros H. unfold Parse.executeHandlers. simpl. by rewrite H. Qed.

Lemma documentationOf_Throw (handlers before after : list Handler) handler
    componentDefinition documentation e :
  handlers = before ++ handler :: after ->
  forEach (run componentDefinition) before newDocumentation = Return documentation ->
  handler documentation componentDefinition = Throw e ->
  documentationOf handlers componentDefinition = Throw (Foreign e).
Proof.
  intros -> Hbefore Hthrow. unfold Parse.documentationOf.
  rewrite forEach_app. unfold Parse.Handler in *. rewrite Hbefore.
  completion. simpl. by rewrite Hthrow.
Qed.

End Pipeline.
End ParseFacts.

(** ** What the specification states of [parse] *)

Module PipelineSpec.
Import Parse ParseFacts.

Section Pipeline.

Context {Documentation DocumentationObject Options Parser Exn : Type}.
Variable newDocumentation : Documentation.
Variable toObject : Documentation -> DocumentationObject.
Variable postProcessDocumentation : DocumentationObject -> DocumentationObject.
Variable buildParser : Options -> Parser.
Variable recast_parse : string -> Parser -> Completion Exn Node.

Local Abbreviation Handler := (@Handler Documentation Exn).
Local Abbreviation Resolver := (@Resolver Exn).
Local Abbreviation documentationOf :=
  (documentationOf newDocumentation toObject postProcessDocumentation).
Local Abbreviation parse :=
  (parse newDocumentation toObject postProcessDocumentation
         buildParser recast_parse).

(** C1: when the source parses and no handler throws, a resolver that
    returns one node makes [parse] return one documentation object, not
    an array; a resolver that returns an array of N >= 1 nodes makes it
    return an array of N objects, the i-th being the object of the i-th
    node. *)
Theorem parse_cardinality src (resolver : Resolver) (handlers : list Handler)
    options program :
  recast_parse src (buildParser options) = Return program ->
  total handlers ->
  (forall componentDefinition,
      resolver program recast = Return (Truthy componentDefinition) ->
      exists object,
        parse src resolver handlers options = Return (Object object)
        /\ documentationOf handlers componentDefinition = Return object)
  /\ (forall componentDefinitions,
        componentDefinitions <> [] ->
        resolver program recast = Return (IsArray componentDefinitions) ->
        exists objects,
          parse src resolver handlers options = Return (Objects objects)
          /\ length objects = length componentDefinitions
          /\ forall i componentDefinition,
               componentDefinitions !! i = Some componentDefinition ->
               exists object,
                 objects !! i = Some object
                 /\ documentationOf handlers componentDefinition = Return object).
Proof.
  intros Hparse Htotal. split.
  - intros cd Hres.
    destruct (documentationOf_total newDocumentation toObject
                postProcessDocumentation handlers cd Htotal) as [object Hobj].
    exists object. split; [|done].
    unfold Parse.parse. rewrite Hparse. completion. rewrite Hres. completion.
    by rewrite (executeHandlers_one _ _ _ _ _ _ Hobj).
  - intros cds Hne Hres.
    destruct (map_Return (documentationOf handlers) cds) as (objects & Hmap & Hall).
    { apply Forall_forall. intros cd _. by apply documentationOf_total. }
    exists objects. split; [|split].
    + unfold Parse.parse. rewrite Hparse. completion. rewrite Hres. completion.
      destruct cds as [|cd cds]; [done|].
      unfold Parse.executeHandlers. by rewrite Hmap.
    + symmetry. by eapply Forall2_length.
    + intros i cd Hi.
      destruct (Forall2_lookup_l _ _ _ _ _ Hall Hi) as (object & Hobj & Hdoc).
      by exists object.
Qed.

(** C2: [parse] throws the error it makes itself, with the message
    "No suitable component definition found.", exactly when the source
    parses and the resolver returns an empty array or a falsy value;
    and [parse] makes no error with another message. *)
Theorem missing_definition_exactly src (resolver : Resolver)
    (handlers : list Handler) options :
  ERROR_MISSING_DEFINITION = "No suitable component definition found."
  /\ (parse src resolver handlers options = Throw (Error ERROR_MISSING_DEFINITION)
      <-> exists program,
            recast_parse src (buildParser options) = Return program
            /\ (resolver program recast = Return (IsArray [])
                \/ resolver program recast = Return Falsy))
  /\ (forall message,
        parse src resolver handlers options = Throw (Error message) ->
        message = ERROR_MISSING_DEFINITION).
Proof.
  split; [done|].
  assert (Hcases : forall message,
    parse src resolver handlers options = Throw (Error message) ->
    message = ERROR_MISSING_DEFINITION
    /\ exists program,
         recast_parse src (buildParser options) = Return program
         /\ (resolver program recast = Return (IsArray [])
             \/ resolver program recast = Return Falsy)).
  { intros message. unfold Parse.parse.
    destruct (recast_parse src (buildParser options)) as [program|e] eqn:Hparse;
      completion; [|done].
    destruct (resolver program recast) as [[cds|cd|]|e] eqn:Hres;
      completion; [| | |done].
    - destruct cds as [|cd cds]; simpl.
      + intros [= <-]. split; [done|]. exists program. by auto.
      + match goal with |- context [Parse.executeHandlers ?a ?b ?c ?h ?l] =>
          pose proof (executeHandlers_no_Error a b c h l message) as Hno;
          destruct (Parse.executeHandlers a b c h l) end; [done|].
        intros [= ->]. done.
    - match goal with |- context [Parse.executeHandlers ?a ?b ?c ?h ?l] =>
        pose proof (executeHandlers_no_Error a b c h l message) as Hno;
        destruct (Parse.executeHandlers a b c h l) end; [done|].
      intros [= ->]. done.
    - intros [= <-]. split; [done|]. exists program. by auto. }
  split; [split|].
  - intros H. by apply Hcases in H as [_ H].
  - intros (program & Hparse & Hres). unfold Parse.parse.
    rewrite Hparse. completion. by destruct Hres as [-> | ->].
  - intros message H. by apply Hcases in H as [H _].
Qed.

(** C8: when a handler throws on a candidate (the handlers before it
    having returned), [parse] throws what the handler threw, unchanged,
    and returns no object: whether the candidate is the one node the
    resolver returned, or one of an array whose earlier candidates were
    all processed with success. *)
Theorem handler_error_fails_batch src (resolver : Resolver)
    (handlers before after : list Handler) (handler : Handler) options program
    documentation earlier componentDefinition later e :
  recast_parse src (buildParser options) = Return program ->
  handlers = before ++ handler :: after ->
  forEach (fun (handler : Handler) documentation =>
             call (handler documentation componentDefinition))
          before newDocumentation = Return documentation ->
  handler documentation componentDefinition = Throw e ->
  Forall (fun cd => exists object, documentationOf handlers cd = Return object)
         earlier ->
  (resolver program recast
   = Return (IsArray (earlier ++ componentDefinition :: later)) ->
   parse src resolver handlers options = Throw (Foreign e))
  /\ (resolver program recast = Return (Truthy componentDefinition) ->
      parse src resolver handlers options = Throw (Foreign e)).
Proof.
  intros Hparse Hsplit Hbefore Hthrow Hearlier.
  pose proof (documentationOf_Throw newDocumentation toObject
                postProcessDocumentation _ _ _ _ _ _ _ Hsplit Hbefore Hthrow)
    as Hcd.
  split; intros Hres; unfold Parse.parse; rewrite Hparse; completion;
    rewrite Hres; completion.
  - unfold Parse.executeHandlers.
    rewrite (map_Throw _ _ _ _ _ Hearlier Hcd).
    rewrite length_app. simpl. by rewrite Nat.add_succ_r.
  - unfold Parse.executeHandlers. simpl. by rewrite Hcd.
Qed.

End Pipeline.



Lemma sample_handlers_total :
  total [Pipeline.displayNameHandler; Pipeline.writeSlot "description" "A component."].
Proof. repeat constructor; intros; by eexists. Qed.

Lemma parse_cardinality_witness :
  (exists object,
      Pipeline.parse "src" Pipeline.findOne
        [Pipeline.displayNameHandler; Pipeline.writeSlot "description" "A component."]
        tt
      = Return (Object object)
      /\ object !! "displayName" = Some "A")
  /\ (exists objects,
        Pipeline.parse "src" Pipeline.findAll
          [Pipeline.displayNameHandler; Pipeline.writeSlot "description" "A component."]
          tt
        = Return (Objects objects)
        /\ length objects = 2).
Proof.
  pose proof (parse_cardinality Pipeline.newDocumentation Pipeline.toObject
                Pipeline.postProcessDocumentation Pipeline.buildParser
                Pipeline.recast_parse "src" Pipeline.findOne _ tt _
                eq_refl sample_handlers_total) as [Hone _].
  pose proof (parse_cardinality Pipeline.newDocumentation Pipeline.toObject
                Pipeline.postProcessDocumentation Pipeline.buildParser
                Pipeline.recast_parse "src" Pipeline.findAll _ tt _
                eq_refl sample_handlers_total) as [_ Hall].
  split.
  - destruct (Hone (Identifier "A") eq_refl) as (object & Hparse & Hobj).
    exists object. split; [exact Hparse|].
    vm_compute in Hobj. injection Hobj as <-. by vm_compute.
  - destruct (Hall [Identifier "A"; Identifier "B"]) as (objects & Hparse & Hlen & _);
      [done..|].
    by exists objects.
Defined.

Lemma handler_error_fails_batch_witness :
  Pipeline.parse "src" Pipeline.findAll
    [Pipeline.displayNameHandler; Pipeline.throwOn "B" "boom"] tt
  = Throw (Foreign "boom")
  /\ Pipeline.parse "src" Pipeline.findB
       [Pipeline.displayNameHandler; Pipeline.throwOn "B" "boom"] tt
     = Throw (Foreign "boom").
Proof.
  split.
  - refine (proj1 (handler_error_fails_batch Pipeline.newDocumentation
                     Pipeline.toObject Pipeline.postProcessDocumentation
                     Pipeline.buildParser Pipeline.recast_parse
                     "src" Pipeline.findAll _ [Pipeline.displayNameHandler]
                     [] (Pipeline.throwOn "B" "boom") tt _ _
                     [Identifier "A"] (Identifier "B") [] "boom"
                     eq_refl eq_refl eq_refl eq_refl _) eq_refl).
    repeat constructor. by eexists.
  - refine (proj2 (handler_error_fails_batch Pipeline.newDocumentation
                     Pipeline.toObject Pipeline.postProcessDocumentation
                     Pipeline.buildParser Pipeline.recast_parse
                     "src" Pipeline.findB _ [Pipeline.displayNameHandler]
                     [] (Pipeline.throwOn "B" "boom") tt _ _
                     [] (Identifier "B") [] "boom"
                     eq_refl eq_refl eq_refl eq_refl _) eq_refl).
    constructor.
Defined.

End PipelineSpec.


(** * Further properties of [toArray] and [toString] *)

Module PathExtras.
Import ExpressionTo Flatten RunFacts FlattenFacts Shapes Samples.

Section WithResolver.

Variable resolveToValue : Node -> option Node.

Local Abbreviation toArray := (toArray resolveToValue).
Local Abbreviation toString := (toString resolveToValue).
Local Abbreviation flattens := (flattens resolveToValue).
Local Abbreviation stringifies := (stringifies resolveToValue).

Lemma plug_snoc ctx fr inner :
  plug (ctx ++ [fr]) inner = plugFrame fr (plug ctx inner).
Proof. unfold plug. by rewrite foldl_snoc. Qed.

Lemma toString_one fuel path text :
  toArray fuel path = Value [Str text] -> toString fuel path = Value text.
Proof. intros H. unfold ExpressionTo.toString. by rewrite H. Qed.

(** X1: the segments that the accesses and calls around an expression add
    to its path do not depend on the expression: the paths of [E[a]] and
    [E[b]] are the paths of [a] and of [b], each followed by the same
    segments. *)
Theorem context_adds_same_suffix ctx a b segsA segsB :
  flattens (plug ctx a) segsA ->
  flattens (plug ctx b) segsB ->
  exists pathA pathB suffix,
    flattens a pathA /\ flattens b pathB
    /\ segsA = pathA ++ suffix /\ segsB = pathB ++ suffix.
Proof.
  revert segsA segsB.
  induction ctx as [|fr ctx IH] using rev_ind; intros segsA segsB HA HB.
  - exists segsA, segsB, []. by rewrite !app_nil_r.
  - rewrite plug_snoc in HA, HB.
    destruct fr as [args|property [|]]; simpl in HA, HB.
    + apply flattens_call in HA, HB. by apply IH.
    + destruct (resolveToValue property) as [resolvedPath|] eqn:Hres.
      * apply (flattens_resolved _ _ _ _ _ Hres) in HA as (sA & rA & HA & HrA & ->).
        apply (flattens_resolved _ _ _ _ _ Hres) in HB as (sB & rB & HB & HrB & ->).
        rewrite (flattens_fun _ _ _ _ HrB HrA).
        destruct (IH _ _ HA HB) as (pA & pB & suffix & ? & ? & -> & ->).
        exists pA, pB, (suffix ++ reverse rA).
        by rewrite !(assoc_L (++)).
      * apply flattens_unresolved in HA as (sA & HA & ->); [|done].
        apply flattens_unresolved in HB as (sB & HB & ->); [|done].
        destruct (IH _ _ HA HB) as (pA & pB & suffix & ? & ? & -> & ->).
        exists pA, pB, (suffix ++ [Str "<computed>"]).
        by rewrite !(assoc_L (++)).
    + apply flattens_static in HA as (sA & HA & ->).
      apply flattens_static in HB as (sB & HB & ->).
      destruct (IH _ _ HA HB) as (pA & pB & suffix & ? & ? & -> & ->).
      exists pA, pB, (suffix ++ [name_of property]).
      by rewrite !(assoc_L (++)).
Qed.

(** X2: when the key of a computed access resolves, the path of the
    access is the path of its object followed by the path of the resolved
    expression in reverse; followed by that one segment when the resolved
    expression has a path of one segment. *)
Theorem computed_access_path object property resolvedPath segs resolved :
  resolveToValue property = Some resolvedPath ->
  flattens object segs ->
  flattens resolvedPath resolved ->
  flattens (MemberExpression object property true) (segs ++ reverse resolved)
  /\ (forall segment, resolved = [segment] ->
        flattens (MemberExpression object property true) (segs ++ [segment])).
Proof.
  intros Hres Hobj Hkey.
  assert (H : flattens (MemberExpression object property true)
                       (segs ++ reverse resolved)).
  { apply (flattens_resolved _ _ _ _ _ Hres). by exists segs, resolved. }
  split; [done|]. by intros segment ->.
Qed.

(** X3: an array literal without hole has a path of one segment: the
    texts [toString] gives for its elements, in order, separated by
    [", "] and between brackets; ["[]"] when it has no element. *)
Theorem array_literal_text elems texts :
  Forall2 stringifies elems texts ->
  flattens (ArrayExpression (Some <$> elems))
           [Str ("[" +:+ join ", " texts +:+ "]")]
  /\ stringifies (ArrayExpression (Some <$> elems))
                 ("[" +:+ join ", " texts +:+ "]").
Proof.
  intros Hall.
  destruct (mapM_common_fuel (elementText resolveToValue) (Some <$> elems) texts)
    as [fuel H].
  { intros ????. by apply elementText_extends. }
  { by apply Forall2_fmap_l. }
  assert (H' : mapM (elementText resolveToValue (S fuel)) (Some <$> elems)
               = Value texts).
  { eapply extends_Value; [|exact H].
    apply extends_mapM. intros ??. apply elementText_extends. lia. }
  assert (Harr : toArray (S (S fuel)) (ArrayExpression (Some <$> elems))
                 = Value [Str ("[" +:+ join ", " texts +:+ "]")]).
  { rewrite toArray_array. by rewrite H'. }
  split; exists (S (S fuel)); [done|by apply toString_one].
Qed.

(** X4: an object literal has a path of one segment: for each property in
    order the text of its key, [": "] and the text of its value, the
    properties separated by [", "] and between braces; ["{}"] when it has
    no property. *)
Theorem object_literal_text props texts :
  Forall2 (fun (property : Node * Node) text =>
             exists key value,
               stringifies property.1 key /\ stringifies property.2 value
               /\ text = key +:+ ": " +:+ value)
          props texts ->
  flattens (ObjectExpression props) [Str ("{" +:+ join ", " texts +:+ "}")]
  /\ stringifies (ObjectExpression props) ("{" +:+ join ", " texts +:+ "}").
Proof.
  intros Hall.
  destruct (mapM_common_fuel (propertyText resolveToValue) props texts) as [fuel H].
  { intros ????. by apply propertyText_extends. }
  { eapply Forall2_impl; [exact Hall|].
    intros [k v] text (ks & vs & [f Hk] & [f' Hv] & ->).
    exists (f `max` f'). unfold propertyText. simpl in *.
    rewrite (toString_mono _ _ _ _ _ (Nat.le_max_l f f') Hk). simpl.
    by rewrite (toString_mono _ _ _ _ _ (Nat.le_max_r f f') Hv). }
  assert (H' : mapM (propertyText resolveToValue (S fuel)) props = Value texts).
  { eapply extends_Value; [|exact H].
    apply extends_mapM. intros ??. apply propertyText_extends. lia. }
  assert (Hobj : toArray (S (S fuel)) (ObjectExpression props)
                 = Value [Str ("{" +:+ join ", " texts +:+ "}")]).
  { rewrite toArray_object. by rewrite H'. }
  split; exists (S (S fuel)); [done|by apply toString_one].
Qed.

Lemma computedFree_property (k v : Node) props :
  forallb (fun kv => match kv with (k, v) => computedFree k && computedFree v end)
          props = true ->
  (k, v) ∈ props -> computedFree k = true /\ computedFree v = true.
Proof.
  intros Hall Hin. apply list_elem_of_In in Hin.
  pose proof (proj1 (forallb_forall _ _) Hall _ Hin) as H. simpl in H.
  by apply andb_true_iff in H.
Qed.

Lemma computedFree_element (e : Node) elems :
  forallb (fun e => match e with Some n => computedFree n | None => true end)
          elems = true ->
  Some e ∈ elems -> computedFree e = true.
Proof.
  intros Hall Hin. apply list_elem_of_In in Hin.
  exact (proj1 (forallb_forall _ _) Hall _ Hin).
Qed.

Lemma noHole_property (k v : Node) props :
  forallb (fun kv => match kv with (k, v) => noHole k && noHole v end)
          props = true ->
  (k, v) ∈ props -> noHole k = true /\ noHole v = true.
Proof.
  intros Hall Hin. apply list_elem_of_In in Hin.
  pose proof (proj1 (forallb_forall _ _) Hall _ Hin) as H. simpl in H.
  by apply andb_true_iff in H.
Qed.

Lemma noHole_element (e : option Node) elems :
  forallb (fun e => match e with Some n => noHole n | None => false end)
          elems = true ->
  e ∈ elems -> exists n, e = Some n /\ noHole n = true.
Proof.
  intros Hall Hin. apply list_elem_of_In in Hin.
  pose proof (proj1 (forallb_forall _ _) Hall _ Hin) as H. simpl in H.
  destruct e as [n|]; [by exists n|done].
Qed.

(** X6: on an expression without computed access and without array hole,
    [toArray] returns within one loop iteration per node and one more,
    whatever the resolver. *)
Theorem computedFree_returns path :
  computedFree path = true ->
  noHole path = true ->
  exists segs, toArray (S (size path)) path = Value segs.
Proof.
  remember (size path) as m eqn:Hm. revert path Hm.
  induction m as [m IH] using lt_wf_ind. intros path -> Hfree Hhole.
  assert (Hsub : forall fuel next,
            size next < size path -> computedFree next = true ->
            noHole next = true -> size next < fuel ->
            exists segs, toArray fuel next = Value segs).
  { intros fuel next Hlt Hnext Hnh Hfuel.
    destruct (IH _ Hlt next eq_refl Hnext Hnh) as [segs H].
    exists segs. apply (toArray_mono _ (S (size next))); [lia|done]. }
  assert (Hstr : forall fuel next,
            size next < size path -> computedFree next = true ->
            noHole next = true -> size next < fuel ->
            exists text, toString fuel next = Value text).
  { intros fuel next Hlt Hnext Hnh Hfuel.
    destruct (Hsub fuel next Hlt Hnext Hnh Hfuel) as [segs H].
    unfold ExpressionTo.toString. rewrite H. by eexists. }
  destruct path as [callee args|object property computed|name|value raw| |props|elems|ty];
    simpl in Hfree, Hhole; try (by eexists).
  - destruct (Hsub (S (size callee + foldr (fun a acc => size a + acc) 0 args)) callee)
      as [segs H]; [simpl; lia|done|done|lia|].
    exists segs. simpl size. by rewrite toArray_call.
  - apply andb_true_iff in Hfree as [Hcomputed Hobject].
    destruct computed; [done|].
    destruct (Hsub (S (size object + size property)) object) as [segs H];
      [simpl; lia|done|done|lia|].
    eexists. simpl size. by rewrite toArray_static, H.
  - simpl size. rewrite toArray_object.
    match goal with |- context [mapM ?g props] =>
      assert (exists texts, mapM g props = Value texts) as [texts ->] end;
      [|by eexists].
    assert (Hall : Forall (fun property =>
              exists text,
                propertyText resolveToValue
                  (S (foldr (fun kv acc => match kv with
                                           | (k, v) => size k + size v + acc
                                           end) 0 props)) property
                = Value text) props).
    { apply Forall_forall. intros [k v] Hin.
      destruct (computedFree_property _ _ _ Hfree Hin) as [Hk Hv].
      destruct (noHole_property _ _ _ Hhole Hin) as [Hk' Hv'].
      pose proof (size_property _ _ _ Hin) as Hle.
      pose proof (size_pos k). pose proof (size_pos v).
      unfold propertyText. simpl.
      destruct (Hstr (S (foldr (fun kv acc => match kv with
                                               | (k, v) => size k + size v + acc
                                               end) 0 props)) k)
        as [ks ->]; [simpl; lia|done|done|lia|].
      destruct (Hstr (S (foldr (fun kv acc => match kv with
                                               | (k, v) => size k + size v + acc
                                               end) 0 props)) v)
        as [vs ->]; [simpl; lia|done|done|lia|].
      by eexists. }
    by apply mapM_returns.
  - simpl size. rewrite toArray_array.
    match goal with |- context [mapM ?g elems] =>
      assert (exists texts, mapM g elems = Value texts) as [texts ->] end;
      [|by eexists].
    assert (Hall : Forall (fun element =>
              exists text,
                elementText resolveToValue
                  (S (foldr (fun e acc => match e with
                                          | Some n => size n + acc
                                          | None => acc
                                          end) 0 elems)) element
                = Value text) elems).
    { apply Forall_forall. intros e Hin.
      destruct (noHole_element _ _ Hhole Hin) as (n & -> & Hn).
      pose proof (size_element _ _ Hin) as Hle. simpl.
      apply Hstr; [simpl; lia|exact (computedFree_element _ _ Hfree Hin)|done|lia]. }
    by apply mapM_returns.
Qed.

End WithResolver.

Lemma context_adds_same_suffix_witness :
  exists pathA pathB suffix,
    flattens noResolver foo pathA /\ flattens noResolver ThisExpression pathB
    /\ [Str "foo"; Str "bar"] = pathA ++ suffix
    /\ [Str "this"; Str "bar"] = pathB ++ suffix.
Proof.
  apply (context_adds_same_suffix noResolver
           [CalleeOf []; ObjectOf (Identifier "bar") false] foo ThisExpression);
    by exists 4.
Defined.

Lemma computed_access_path_witness :
  flattens pathResolver fooX ([Str "foo"] ++ reverse [Str "a"; Str "b"])
  /\ (forall segment, [Str "a"; Str "b"] = [segment] ->
        flattens pathResolver fooX ([Str "foo"] ++ [segment])).
Proof.
  apply (computed_access_path pathResolver foo (Identifier "x") aDotB);
    [done|by exists 2|by exists 3].
Defined.

Lemma array_literal_text_witness :
  flattens noResolver oneTwoThree [Str "[1, 2, 3]"]
  /\ stringifies noResolver oneTwoThree "[1, 2, 3]".
Proof.
  apply (array_literal_text noResolver
           [number 1 "1"; number 2 "2"; number 3 "3"] ["1"; "2"; "3"]).
  repeat constructor; by exists 2.
Defined.

Lemma object_literal_text_witness :
  flattens noResolver aOneBTwo [Str "{a: 1, b: 2}"]
  /\ stringifies noResolver aOneBTwo "{a: 1, b: 2}".
Proof.
  apply (object_literal_text noResolver _ ["a: 1"; "b: 2"]).
  repeat constructor.
  - exists "a", "1". repeat split; by exists 2.
  - exists "b", "2". repeat split; by exists 2.
Defined.

Lemma computedFree_returns_witness :
  exists segs, toArray cyclicResolver (S (size thisPropsItems)) thisPropsItems = Value segs.
Proof. apply (computedFree_returns cyclicResolver thisPropsItems); done. Defined.

(** X5: on an expression without computed access, the result of
    [toArray] and of [toString] is the same for any two resolvers: what
    the identifiers are bound to is not looked at. *)
Theorem computedFree_ignores_resolver (resolve resolve' : Node -> option Node)
    (fuel : nat) (path : Node) :
  computedFree path = true ->
  toArray resolve fuel path = toArray resolve' fuel path
  /\ toString resolve fuel path = toString resolve' fuel path.
Proof.
  assert (H : forall fuel parts result,
            forallb computedFree parts = true ->
            toArray_while resolve fuel parts result
            = toArray_while resolve' fuel parts result).
  { clear fuel path. induction fuel as [|fuel IH]; intros parts result Hfree; [done|].
    assert (Hstr : forall p, computedFree p = true ->
      (fun segs => join "." (segment_text <$> segs)) <$> toArray_while resolve fuel [p] []
      = (fun segs => join "." (segment_text <$> segs)) <$> toArray_while resolve' fuel [p] []).
    { intros p Hp. rewrite (IH [p] []); [done|]. simpl. by rewrite Hp. }
    simpl.
    destruct parts as [|path parts]; [done|].
    simpl in Hfree. apply andb_true_iff in Hfree as [Hpath Hparts].
    assert (Hpush : forall next, computedFree next = true ->
              forallb computedFree (parts ++ [next]) = true).
    { intros next Hnext. rewrite forallb_app, Hparts. simpl. by rewrite Hnext. }
    destruct path as [callee args|object property computed|name|value raw| |props|elems|ty];
      simpl in Hpath; try (by apply IH).
    - apply IH. by apply Hpush.
    - apply andb_true_iff in Hpath as [Hcomputed Hobject].
      destruct computed; [done|]. apply IH. by apply Hpush.
    - match goal with |- (mapM ?g _ ≫= _) = (mapM ?g' _ ≫= _) =>
        assert (Hmap : mapM g props = mapM g' props) end.
      { apply mapM_ext_in. intros [k v] Hin.
        destruct (computedFree_property _ _ _ Hpath Hin) as [Hk Hv]. simpl.
        by rewrite (Hstr k Hk), (Hstr v Hv). }
      rewrite Hmap.
      match goal with |- (?m ≫= _) = _ => destruct m end; [|done..].
      simpl. by apply IH.
    - match goal with |- (mapM ?g _ ≫= _) = (mapM ?g' _ ≫= _) =>
        assert (Hmap : mapM g elems = mapM g' elems) end.
      { apply mapM_ext_in. intros [e|] Hin; [|done].
        apply Hstr. exact (computedFree_element _ _ Hpath Hin). }
      rewrite Hmap.
      match goal with |- (?m ≫= _) = _ => destruct m end; [|done..].
      simpl. by apply IH. }
  intros Hfree.
  assert (Heq : toArray resolve fuel path = toArray resolve' fuel path).
  { apply H. simpl. by rewrite Hfree. }
  split; [done|]. unfold toString. by rewrite Heq.
Qed.

Lemma computedFree_ignores_resolver_witness :
  toArray noResolver 4 thisPropsItems = toArray cyclicResolver 4 thisPropsItems
  /\ toString noResolver 4 thisPropsItems = toString cyclicResolver 4 thisPropsItems.
Proof. apply (computedFree_ignores_resolver noResolver cyclicResolver). done. Defined.

End PathExtras.


(** * Further properties of [executeHandlers] and [parse] *)

Module PipelineExtras.
Import Parse ParseFacts.

Section Arrays.

Context {E A B : Type}.

Lemma map_Return_inv (callback : A -> Completion E B) l bs :
  map callback l = Return bs ->
  Forall2 (fun a b => callback a = Return b) l bs.
Proof.
  revert bs. induction l as [|a l IH]; intros bs; simpl.
  - intros [= <-]. constructor.
  - destruct (callback a) as [b|e] eqn:Ha; completion; [|done].
    destruct (map callback l) as [bs'|e]; [|done].
    intros [= <-]. constructor; [done|by apply IH].
Qed.

End Arrays.

Section Pipeline.

Context {Documentation DocumentationObject Options Parser Exn : Type}.
Variable newDocumentation : Documentation.
Variable toObject : Documentation -> DocumentationObject.
Variable postProcessDocumentation : DocumentationObject -> DocumentationObject.
Variable buildParser : Options -> Parser.
Variable recast_parse : string -> Parser -> Completion Exn Node.

Local Abbreviation Handler := (@Handler Documentation Exn).
Local Abbreviation Resolver := (@Resolver Exn).
Local Abbreviation documentationOf :=
  (documentationOf newDocumentation toObject postProcessDocumentation).
Local Abbreviation executeHandlers :=
  (executeHandlers newDocumentation toObject postProcessDocumentation).
Local Abbreviation parse :=
  (parse newDocumentation toObject postProcessDocumentation
         buildParser recast_parse).

(** X7: what [parse] returns tells what the resolver returned.  It
    returns one object only when the source parsed and the resolver
    returned one node, and this is the object of that node; an array only
    when the resolver returned an array of as many nodes, not empty, and
    these are the objects of the nodes in order; and it never returns
    [undefined]. *)
Theorem parse_result_shape src (resolver : Resolver) (handlers : list Handler)
    options result :
  parse src resolver handlers options = Return result ->
  exists program,
    recast_parse src (buildParser options) = Return program
    /\ match result with
       | Object object =>
           exists componentDefinition,
             resolver program recast = Return (Truthy componentDefinition)
             /\ documentationOf handlers componentDefinition = Return object
       | Objects objects =>
           exists componentDefinitions,
             resolver program recast = Return (IsArray componentDefinitions)
             /\ componentDefinitions <> []
             /\ Forall2 (fun componentDefinition object =>
                           documentationOf handlers componentDefinition
                           = Return object)
                        componentDefinitions objects
       | UndefinedObject => False
       end.
Proof.
  unfold Parse.parse.
  destruct (recast_parse src (buildParser options)) as [program|e] eqn:Hparse;
    completion; [|done].
  destruct (resolver program recast) as [[cds|cd|]|e] eqn:Hres;
    completion; [| |done..].
  - destruct cds as [|cd cds]; [done|]. simpl.
    destruct (Parse.executeHandlers _ _ _ handlers (cd :: cds)) as [objects|t] eqn:Hrun;
      [|done].
    intros [= <-]. exists program. split; [done|].
    exists (cd :: cds). split; [done|]. split; [done|]. by apply map_Return_inv.
  - destruct (Parse.executeHandlers _ _ _ handlers [cd]) as [objects|t] eqn:Hrun;
      [|done].
    apply map_Return_inv in Hrun.
    apply Forall2_cons_inv_l in Hrun as (object & objects' & Hobj & Hnil & ->).
    simpl. intros [= <-]. exists program. split; [done|]. by exists cd.
Qed.

(** X9: with an empty list of handlers, every definition the resolver
    returned gets the same object, the normalised projection of a fresh
    record: an array of as many copies for an array of definitions, the
    object itself for one definition. *)
Theorem parse_without_handlers src (resolver : Resolver) options program :
  recast_parse src (buildParser options) = Return program ->
  (forall componentDefinitions,
      componentDefinitions <> [] ->
      resolver program recast = Return (IsArray componentDefinitions) ->
      parse src resolver [] options
      = Return (Objects (replicate (length componentDefinitions)
                           (postProcessDocumentation (toObject newDocumentation)))))
  /\ (forall componentDefinition,
        resolver program recast = Return (Truthy componentDefinition) ->
        parse src resolver [] options
        = Return (Object (postProcessDocumentation (toObject newDocumentation)))).
Proof.
  intros Hparse.
  assert (Hrun : forall cds,
    Parse.executeHandlers newDocumentation toObject postProcessDocumentation
      (Exn := Exn) [] cds
    = Return (replicate (length cds)
                (postProcessDocumentation (toObject newDocumentation)))).
  { induction cds as [|cd cds IH]; [done|].
    unfold Parse.executeHandlers in *. simpl. completion. by rewrite IH. }
  split.
  - intros cds Hne Hres. unfold Parse.parse. rewrite Hparse. completion.
    rewrite Hres. completion. destruct cds as [|cd cds]; [done|].
    by rewrite Hrun.
  - intros cd Hres. unfold Parse.parse. rewrite Hparse. completion.
    by rewrite Hres.
Qed.

End Pipeline.

Lemma parse_result_shape_witness :
  exists program,
    Pipeline.recast_parse "src" (Pipeline.buildParser tt) = Return program
    /\ exists componentDefinition,
         Pipeline.findOne program recast = Return (Truthy componentDefinition)
         /\ documentationOf Pipeline.newDocumentation Pipeline.toObject
              Pipeline.postProcessDocumentation [Pipeline.displayNameHandler]
              componentDefinition
            = Return {["displayName" := "A"]}.
Proof.
  apply (parse_result_shape Pipeline.newDocumentation Pipeline.toObject
           Pipeline.postProcessDocumentation Pipeline.buildParser
           Pipeline.recast_parse "src" Pipeline.findOne
           [Pipeline.displayNameHandler] tt (Object {["displayName" := "A"]})).
  by vm_compute.
Defined.

Lemma parse_without_handlers_witness :
  Pipeline.parse "src" Pipeline.findAll [] tt
  = Return (Objects (replicate 2 (Pipeline.postProcessDocumentation
                                    (Pipeline.toObject Pipeline.newDocumentation)))).
Proof.
  refine (proj1 (parse_without_handlers Pipeline.newDocumentation Pipeline.toObject
                   Pipeline.postProcessDocumentation Pipeline.buildParser
                   Pipeline.recast_parse "src" Pipeline.findAll tt _ eq_refl)
                [Identifier "A"; Identifier "B"] _ eq_refl).
  done.
Defined.

End PipelineExtras.
